(** * inline-sdk: the request/response contract layer

    A shallow embedding of the TypeScript client of the Inline message
    queue: the validators ([src/validators.ts]), the zod schemas they use
    ([src/schemas.ts]), the error classes ([src/errors.ts]) and the client
    ([src/client.ts]), followed by the properties the specification states
    about them.

    Conventions.
    - A JavaScript string is a [string]: a sequence of code units.  Every
      pattern of the program is ASCII-only, so a code unit above 127 behaves
      like any other character outside the pattern's classes.
    - A thrown exception is a value of [thrown]; a function that may throw
      returns an [outcome].
    - The injected transport ([fetch]) is a function from the call it
      receives to what happens to that call, together with a log of the
      calls made (the [calls] array of the test suite's [MockFetch]). *)

From Stdlib Require Import Bool Arith ZArith QArith Lia List.
From Stdlib Require Import Ascii String DecimalString.
Import ListNotations.

Set Warnings "-register-all".

Open Scope string_scope.
Open Scope Z_scope.

(* ================================================================== *)
(** * Part I: definitions                                              *)
(* ================================================================== *)

(** ** Regular expressions

    The fragment of JavaScript's [RegExp] the validators use: literals,
    character classes given by ranges, concatenation, alternation and
    bounded or unbounded repetition.  Every pattern of the program is
    anchored ([^...$], no flags), so [RegExp.prototype.test] is a match of
    the whole input; it is decided with Brzozowski derivatives. *)
Module Regex.

(** A character class [[a-bc-d...]]: a list of inclusive ranges. *)
Definition class := list (ascii * ascii).

Inductive re : Type :=
| Void                       (* matches nothing *)
| Eps                        (* the empty string *)
| Chars (cls : class)        (* one character of a class *)
| Cat (r1 r2 : re)           (* r1 r2 *)
| Alt (r1 r2 : re)           (* r1|r2 *)
| Star (r : re).             (* r* *)

Definition in_range (c : ascii) (rg : ascii * ascii) : bool :=
  (nat_of_ascii (fst rg) <=? nat_of_ascii c)%nat
  && (nat_of_ascii c <=? nat_of_ascii (snd rg))%nat.

Definition in_class (c : ascii) (cls : class) : bool :=
  existsb (in_range c) cls.

(** [a-b] and a single character [a] inside a class. *)
Definition range (lo hi : ascii) : ascii * ascii := (lo, hi).
Definition one (c : ascii) : ascii * ascii := (c, c).

(** A literal character and a literal string. *)
Definition Chr (c : ascii) : re := Chars [one c].

Fixpoint Lit (s : string) : re :=
  match s with
  | EmptyString => Eps
  | String c s' => Cat (Chr c) (Lit s')
  end.

(** [r{n}], [r?] and [r+]. *)
Fixpoint Rep (n : nat) (r : re) : re :=
  match n with
  | O => Eps
  | S n' => Cat r (Rep n' r)
  end.

Definition Opt (r : re) : re := Alt Eps r.
Definition Plus (r : re) : re := Cat r (Star r).

(** [\d] is [[0-9]] in JavaScript, with or without the unicode flag. *)
Definition digit : re := Chars [range "0" "9"].

Fixpoint nullable (r : re) : bool :=
  match r with
  | Void => false
  | Eps => true
  | Chars _ => false
  | Cat r1 r2 => nullable r1 && nullable r2
  | Alt r1 r2 => nullable r1 || nullable r2
  | Star _ => true
  end.

Fixpoint deriv (c : ascii) (r : re) : re :=
  match r with
  | Void => Void
  | Eps => Void
  | Chars cls => if in_class c cls then Eps else Void
  | Cat r1 r2 =>
      if nullable r1
      then Alt (Cat (deriv c r1) r2) (deriv c r2)
      else Cat (deriv c r1) r2
  | Alt r1 r2 => Alt (deriv c r1) (deriv c r2)
  | Star r1 => Cat (deriv c r1) (Star r1)
  end.

(** [/^r$/.test(s)] *)
Fixpoint test (r : re) (s : string) : bool :=
  match s with
  | EmptyString => nullable r
  | String c s' => test (deriv c r) s'
  end.

(** The strings a pattern denotes; [test] is proved to decide it. *)
Inductive Lang : re -> string -> Prop :=
| LEps : Lang Eps ""
| LChars c cls : in_class c cls = true -> Lang (Chars cls) (String c "")
| LCat r1 r2 s1 s2 :
    Lang r1 s1 -> Lang r2 s2 -> Lang (Cat r1 r2) (s1 ++ s2)
| LAltL r1 r2 s : Lang r1 s -> Lang (Alt r1 r2) s
| LAltR r1 r2 s : Lang r2 s -> Lang (Alt r1 r2) s
| LStarNil r : Lang (Star r) ""
| LStarApp r s1 s2 :
    Lang r s1 -> Lang (Star r) s2 -> Lang (Star r) (s1 ++ s2).

End Regex.

Import Regex.

(** ** JSON values

    What [response.json()] produces and what the validators receive.  A
    JSON number is a finite double, hence a rational.  An object is the
    list of its own properties in enumeration order; a property that is
    absent reads as [undefined], which is [None] below. *)
Inductive value : Type :=
| VNull
| VBool (b : bool)
| VNum (q : Q)
| VStr (s : string)
| VArr (items : list value)
| VObj (props : list (string * value)).

(** [o[k]] on an own property: the first binding of [k]. *)
Fixpoint lookup {A : Type} (k : string) (props : list (string * A)) : option A :=
  match props with
  | [] => None
  | (k', v) :: rest => if String.eqb k k' then Some v else lookup k rest
  end.

(** [k in o] *)
Definition has_key {A : Type} (k : string) (props : list (string * A)) : bool :=
  existsb (fun kv => String.eqb k (fst kv)) props.

(** [o[k] = v] on a key that is not an array index: an existing property
    keeps its place, a new one is added last. *)
Fixpoint assign {A : Type} (k : string) (v : A) (props : list (string * A))
  : list (string * A) :=
  match props with
  | [] => [(k, v)]
  | (k', v') :: rest =>
      if String.eqb k k' then (k, v) :: rest else (k', v') :: assign k v rest
  end.

(** Property names are pairwise distinct, at every depth (always so for
    a value built by [JSON.parse] or by an object literal). *)
Fixpoint distinct_keys (ks : list string) : bool :=
  match ks with
  | [] => true
  | k :: rest => negb (existsb (String.eqb k) rest) && distinct_keys rest
  end.

Fixpoint well_formed (v : value) : bool :=
  match v with
  | VArr items => forallb well_formed items
  | VObj props =>
      distinct_keys (map fst props)
      && forallb (fun kv => well_formed (snd kv)) props
  | _ => true
  end.

Definition same_items (same : value -> value -> bool)
  : list value -> list value -> bool :=
  fix items (xs ys : list value) {struct xs} : bool :=
    match xs, ys with
    | [], [] => true
    | x :: xs', y :: ys' => same x y && items xs' ys'
    | _, _ => false
    end.

(** Deep equality of two values, the order of an object's properties
    aside (what [expect(a).toStrictEqual(b)] tests on JSON data). *)
Fixpoint same_value (a b : value) {struct a} : bool :=
  match a, b with
  | VNull, VNull => true
  | VBool x, VBool y => Bool.eqb x y
  | VNum p, VNum q => Qeq_bool p q
  | VStr s, VStr t => String.eqb s t
  | VArr xs, VArr ys => same_items same_value xs ys
  | VObj ps, VObj qs =>
      forallb (fun kv =>
                 match lookup (fst kv) qs with
                 | Some w => same_value (snd kv) w
                 | None => false
                 end) ps
      && forallb (fun kv => has_key (fst kv) ps) qs
  | _, _ => false
  end.

(** ** zod

    The schema combinators [src/schemas.ts] and [src/validators.ts] build
    their schemas from, with the meaning the library documents for them:
    [describe] only attaches metadata and is dropped; an object schema
    accepts unknown keys and leaves them out of its output (zod's default
    [strip] policy); a record keeps every property of its input. *)
Module Zod.

Inductive string_check : Type :=
| regex (r : re)        (* .regex(/^r$/) *)
| datetime              (* .datetime() *)
| url.                  (* .url() *)

Inductive number_check : Type :=
| int                   (* .int() *)
| nonnegative           (* .nonnegative() *)
| positive.             (* .positive() *)

Inductive schema : Type :=
| string_ (checks : list string_check)     (* z.string()... *)
| number (checks : list number_check)      (* z.number()... *)
| boolean                                  (* z.boolean() *)
| enum (options : list string)             (* z.enum([...]) *)
| literal (s : string)                     (* z.literal("...") *)
| unknown                                  (* z.unknown() *)
| record (valueType : schema)              (* z.record(valueType) *)
| array (element : schema)                 (* z.array(element) *)
| object (shape : list (string * schema))  (* z.object({...}) *)
| optional (inner : schema)                (* inner.optional() *)
| nullable (inner : schema).               (* inner.nullable() *)

(** Modelled from the spec: the pattern behind zod's [datetime()] check
    with default options, which lives in the zod package and not in the
    repository.  The specification gives the accepted form as
    [YYYY-MM-DDTHH:MM:SS[.fff]Z], UTC designator mandatory, fractional
    seconds optional:
    [/^\d{4}-\d{2}-\d{2}T\d{2}:\d{2}:\d{2}(\.\d+)?Z$/]. *)
Definition datetimeRegex : re :=
  Cat (Rep 4 digit) (Cat (Chr "-") (Cat (Rep 2 digit) (Cat (Chr "-")
  (Cat (Rep 2 digit) (Cat (Chr "T")
  (Cat (Rep 2 digit) (Cat (Chr ":") (Cat (Rep 2 digit) (Cat (Chr ":")
  (Cat (Rep 2 digit)
  (Cat (Opt (Cat (Chr ".") (Plus digit))) (Chr "Z")))))))))))).

(** [Number.isInteger(q)] *)
Definition isInteger (q : Q) : bool :=
  (Qnum q mod Zpos (Qden q) =? 0)%Z.

Definition check_number (q : Q) (c : number_check) : bool :=
  match c with
  | int => isInteger q
  | nonnegative => (0 <=? Qnum q)%Z
  | positive => (0 <? Qnum q)%Z
  end.

(** The loops of the three container schemas, over the parser of their
    parts: an object schema visits the keys of its shape and reads each
    from the input; a record and an array visit the input. *)
Definition parse_shape
    (parse : schema -> option value -> option (option value))
    (props : list (string * value))
  : list (string * schema) -> option (list (string * value)) :=
  fix fields (shape : list (string * schema)) :=
    match shape with
    | [] => Some []
    | (k, sk) :: rest =>
        match parse sk (lookup k props), fields rest with
        | Some (Some v'), Some out => Some ((k, v') :: out)
        | Some None, Some out => Some out
        | _, _ => None
        end
    end.

Definition parse_entries (parse : value -> option (option value))
  : list (string * value) -> option (list (string * value)) :=
  fix each (props : list (string * value)) :=
    match props with
    | [] => Some []
    | (k, v) :: rest =>
        match parse v, each rest with
        | Some (Some v'), Some out => Some ((k, v') :: out)
        | Some None, Some out => Some out
        | _, _ => None
        end
    end.

Definition parse_items (parse : value -> option (option value))
  : list value -> option (list value) :=
  fix each (items : list value) :=
    match items with
    | [] => Some []
    | v :: rest =>
        match parse v, each rest with
        | Some (Some v'), Some out => Some (v' :: out)
        | _, _ => None
        end
    end.

Section Parse.

(** Whether [new URL(s)] succeeds: the host's URL parser, which the
    [url()] check calls. *)
Variable URL_ok : string -> bool.

Definition check_string (s : string) (c : string_check) : bool :=
  match c with
  | regex r => test r s
  | datetime => test datetimeRegex s
  | url => URL_ok s
  end.

(** [schema.safeParse(x)]: [None] when the input has issues, otherwise
    the parsed output ([Some None] is the output [undefined]). *)
Fixpoint safeParse (s : schema) (x : option value) {struct s}
  : option (option value) :=
  match s with
  | string_ checks =>
      match x with
      | Some (VStr str) =>
          if forallb (check_string str) checks then Some x else None
      | _ => None
      end
  | number checks =>
      match x with
      | Some (VNum q) =>
          if forallb (check_number q) checks then Some x else None
      | _ => None
      end
  | boolean =>
      match x with
      | Some (VBool _) => Some x
      | _ => None
      end
  | enum options =>
      match x with
      | Some (VStr str) =>
          if existsb (String.eqb str) options then Some x else None
      | _ => None
      end
  | literal l =>
      match x with
      | Some (VStr str) => if String.eqb str l then Some x else None
      | _ => None
      end
  | unknown => Some x
  | record valueType =>
      match x with
      | Some (VObj props) =>
          option_map (fun out => Some (VObj out))
            (parse_entries (fun v => safeParse valueType (Some v)) props)
      | _ => None
      end
  | array element =>
      match x with
      | Some (VArr items) =>
          option_map (fun out => Some (VArr out))
            (parse_items (fun v => safeParse element (Some v)) items)
      | _ => None
      end
  | object shape =>
      match x with
      | Some (VObj props) =>
          option_map (fun out => Some (VObj out))
            (parse_shape safeParse props shape)
      | _ => None
      end
  | optional inner =>
      match x with
      | None => Some None
      | Some _ => safeParse inner x
      end
  | nullable inner =>
      match x with
      | Some VNull => Some x
      | _ => safeParse inner x
      end
  end.

End Parse.

End Zod.

Import Zod.

(** ** [src/schemas.ts] *)

Definition errorCodes : list string :=
  [ "HTTP_4XX"; "HTTP_5XX"; "TIMEOUT"; "ECONNREFUSED"; "ECONNRESET";
    "ENOTFOUND"; "DNS_FAILURE"; "NETWORK_ERROR"; "UNKNOWN" ].

Definition ErrorCodeSchema : schema := enum errorCodes.

Definition eventTypes : list string :=
  [ "MESSAGE_RECEIVED"; "PROCESSING_STARTED"; "PROCESSING_COMPLETED";
    "PROCESSING_FAILED"; "CALLBACK_INITIATED"; "CALLBACK_SUCCEEDED";
    "CALLBACK_FAILED"; "CALLBACK_RETRYING"; "MANUAL_RETRY_TRIGGERED" ].

Definition EventTypeSchema : schema := enum eventTypes.

Definition ISODateTime : schema := string_ [datetime].

(** [[0-9A-HJKMNP-TV-Z]] *)
Definition ulid_alphabet : class :=
  [ range "0" "9"; range "A" "H"; one "J"; one "K"; one "M"; one "N";
    range "P" "T"; range "V" "Z" ].

(** [/^message_[0-7][0-9A-HJKMNP-TV-Z]{25}$/] *)
Definition message_id_pattern : re :=
  Cat (Lit "message_")
      (Cat (Chars [range "0" "7"]) (Rep 25 (Chars ulid_alphabet))).

Definition MessageId : schema := string_ [regex message_id_pattern].

Definition CallbackErrorSchema : schema :=
  object
    [ ("id", string_ []);
      ("message_id", MessageId);
      ("error_code", ErrorCodeSchema);
      ("error_message", string_ []);
      ("http_status_code", optional (number [int]));
      ("created_at", ISODateTime);
      ("attempt_number", optional (number [int]));
      ("duration_ms", optional (number [int])) ].

Definition MessageResponseSchema : schema :=
  object
    [ ("id", MessageId);
      ("callback_url", string_ [url]);
      ("payload", record unknown);
      ("callback_headers", record (string_ []));
      ("status",
        enum ["pending"; "processing"; "completed"; "failed"; "dead_letter"]);
      ("created_at", ISODateTime);
      ("updated_at", ISODateTime);
      ("scheduled_at", optional ISODateTime);
      ("retry_count", number [int; nonnegative]);
      ("max_retries", number [int; nonnegative]);
      ("next_retry_at", optional ISODateTime);
      ("last_error", optional CallbackErrorSchema);
      ("timezone", optional (string_ []));
      ("attempt_number", optional (number [int]));
      ("event_count", optional (number [int; nonnegative])) ].

Definition TimelineEventSchema : schema :=
  object
    [ ("type", EventTypeSchema);
      ("timestamp", ISODateTime);
      ("details", optional (nullable (record unknown))) ].

Definition TimelineResponseSchema : schema :=
  object
    [ ("message_id", string_ [regex message_id_pattern]);
      ("event_count", number [int; nonnegative]);
      ("events", array TimelineEventSchema) ].

(** ** Thrown values and outcomes *)

(** A native error object that is not one of the client's own classes:
    a [TypeError] (what [fetch] rejects with on a network failure), or any
    other [Error] identified by its [name] (a [DOMException] named
    [AbortError], a [SyntaxError], a plain [Error], ...). *)
Inductive native_error : Type :=
| TypeError (message : string)
| OtherError (name message : string).

(** The result of [parseInt]: a number or [NaN]. *)
Inductive js_number : Type :=
| Num (z : Z)
| NaN.

(** [src/errors.ts]: the classes that extend [InlineError].  The fields
    [code], [status] and [name] that each constructor fixes are the
    functions below. *)
Inductive InlineError : Type :=
| ApiError (message : string) (status : Z) (response : string)
| NetworkError (message : string) (originalError : option native_error)
| ValidationError (message : string)
| AuthenticationError (message : string)
| AuthorizationError (message : string)
| NotFoundError (message : string)
| RateLimitError (message : string) (retryAfter : option js_number)
| ServerError (message : string) (status : Z).

Definition error_code (e : InlineError) : string :=
  match e with
  | ApiError _ _ _ => "API_ERROR"
  | NetworkError _ _ => "NETWORK_ERROR"
  | ValidationError _ => "VALIDATION_ERROR"
  | AuthenticationError _ => "AUTHENTICATION_ERROR"
  | AuthorizationError _ => "AUTHORIZATION_ERROR"
  | NotFoundError _ => "NOT_FOUND"
  | RateLimitError _ _ => "RATE_LIMIT"
  | ServerError _ _ => "SERVER_ERROR"
  end.

Definition error_status (e : InlineError) : option Z :=
  match e with
  | ApiError _ st _ => Some st
  | NetworkError _ _ => None
  | ValidationError _ => None
  | AuthenticationError _ => Some 401
  | AuthorizationError _ => Some 403
  | NotFoundError _ => Some 404
  | RateLimitError _ _ => Some 429
  | ServerError _ st => Some st
  end.

Definition error_name (e : InlineError) : string :=
  match e with
  | ApiError _ _ _ => "ApiError"
  | NetworkError _ _ => "NetworkError"
  | ValidationError _ => "ValidationError"
  | AuthenticationError _ => "AuthenticationError"
  | AuthorizationError _ => "AuthorizationError"
  | NotFoundError _ => "NotFoundError"
  | RateLimitError _ _ => "RateLimitError"
  | ServerError _ _ => "ServerError"
  end.

(** Anything a [throw] can carry: an [InlineError] ([instanceof
    InlineError] holds), a native error object, or a value that is not an
    error object at all. *)
Inductive thrown : Type :=
| Inline (e : InlineError)
| Native (e : native_error)
| NonError (v : value).

Inductive outcome (A : Type) : Type :=
| Returns (a : A)
| Throws (e : thrown).
Arguments Returns {A} a.
Arguments Throws {A} e.

(** [new Error(message)] *)
Definition Error (message : string) : thrown :=
  Native (OtherError "Error" message).

(** ** [src/validators.ts] *)

(** [xs.join(sep)] *)
Fixpoint join (sep : string) (xs : list string) : string :=
  match xs with
  | [] => ""
  | [x] => x
  | x :: rest => x ++ sep ++ join sep rest
  end.

Section Validators.

(** The host's URL parser (see [Zod.safeParse]). *)
Variable URL_ok : string -> bool.

(** [result.error.errors] of a failed [safeParse]: zod's issues, each a
    path and a message.  Their wording belongs to zod; only the way the
    validators assemble them into the thrown message is modelled. *)
Variable issues : schema -> value -> list (list string * string).

Definition report (s : schema) (data : value) : string :=
  join "; "
    (map (fun e => join "." (fst e) ++ ": " ++ snd e) (issues s data)).

(** A string input can only fail the schema's one check, so
    [errors[0].message] is the message the check was given. *)
Definition parseMessageId (id : string) : outcome string :=
  let messageIdSchema := string_ [regex message_id_pattern] in
  match safeParse URL_ok messageIdSchema (Some (VStr id)) with
  | Some (Some (VStr data)) => Returns data
  | _ =>
      Throws (Error
        "Invalid message ID format. Expected: message_[0-7][0-9A-HJKMNP-TV-Z]{25}")
  end.

(** [errors[0].message] is zod's message for a failed [datetime()]. *)
Definition validateTimestamp (timestamp : string) : outcome string :=
  let datetimeSchema := string_ [datetime] in
  match safeParse URL_ok datetimeSchema (Some (VStr timestamp)) with
  | Some (Some (VStr data)) => Returns data
  | _ => Throws (Error "Invalid datetime")
  end.

Definition validateMessageResponse (data : value) : outcome value :=
  match safeParse URL_ok MessageResponseSchema (Some data) with
  | Some (Some result) => Returns result
  | _ =>
      Throws (Error ("Invalid message response: "
                     ++ report MessageResponseSchema data))
  end.

Definition validateTimelineResponse (data : value) : outcome value :=
  match safeParse URL_ok TimelineResponseSchema (Some data) with
  | Some (Some result) => Returns result
  | _ =>
      Throws (Error ("Invalid timeline response: "
                     ++ report TimelineResponseSchema data))
  end.

Definition validateCallbackError (data : value) : outcome value :=
  match safeParse URL_ok CallbackErrorSchema (Some data) with
  | Some (Some result) => Returns result
  | _ =>
      Throws (Error ("Invalid callback error: "
                     ++ report CallbackErrorSchema data))
  end.

End Validators.

(** ** Host functions the client calls *)

(** JavaScript truthiness of an optional string: [undefined] and [""] are
    falsy. *)
Definition truthy (o : option string) : bool :=
  match o with
  | Some s => negb (s =? "")%string
  | None => false
  end.

(** [s.toUpperCase()] on the ASCII letters; an HTTP method is a token of
    ASCII characters. *)
Definition upper (c : ascii) : ascii :=
  if in_class c [range "a" "z"]
  then ascii_of_nat (nat_of_ascii c - 32)
  else c.

Fixpoint toUpperCase (s : string) : string :=
  match s with
  | EmptyString => EmptyString
  | String c s' => String (upper c) (toUpperCase s')
  end.

Definition hex_digit (n : nat) : ascii :=
  nth n (list_ascii_of_string "0123456789ABCDEF") "0"%char.

(** [%XX] for one byte. *)
Definition percent (b : nat) : string :=
  String "%" (String (hex_digit (b / 16)) (String (hex_digit (b mod 16)) "")).

Definition uri_unreserved : class :=
  [ range "A" "Z"; range "a" "z"; range "0" "9"; one "-"; one "_"; one ".";
    one "!"; one "~"; one "*"; one "'"; one "("; one ")" ].

(** [encodeURIComponent(s)]: every character outside the unreserved set is
    replaced by the percent-escapes of its UTF-8 bytes (one byte up to
    U+007F, two bytes from U+0080 to U+00FF). *)
Fixpoint encodeURIComponent (s : string) : string :=
  match s with
  | EmptyString => EmptyString
  | String c s' =>
      let n := nat_of_ascii c in
      (if in_class c uri_unreserved then String c ""
       else if (n <? 128)%nat then percent n
       else percent (192 + n / 64) ++ percent (128 + n mod 64))
      ++ encodeURIComponent s'
  end.

(** The white space [parseInt] skips, among the code units below 256. *)
Definition white_space : class :=
  [ range "009" "013"; one " "; one "160" ].

Fixpoint skip_white_space (s : string) : string :=
  match s with
  | String c s' => if in_class c white_space then skip_white_space s' else s
  | EmptyString => s
  end.

(** The value of the longest prefix of decimal digits, [None] when there
    is none. *)
Fixpoint leading_digits (acc : option Z) (s : string) : option Z :=
  match s with
  | String c s' =>
      if in_class c [range "0" "9"]
      then leading_digits
             (Some (10 * match acc with Some a => a | None => 0 end
                    + Z.of_nat (nat_of_ascii c - 48)))
             s'
      else acc
  | EmptyString => acc
  end.

(** [parseInt(s, 10)]: leading white space, an optional sign, then as
    many decimal digits as there are; [NaN] without a digit.  The result
    is the integer read; its rounding to a double beyond 2^53 is not
    modelled. *)
Definition parseInt10 (s : string) : js_number :=
  let s := skip_white_space s in
  let (sign, s) :=
    match s with
    | String "-" s' => (-1, s')
    | String "+" s' => (1, s')
    | _ => (1, s)
    end in
  match leading_digits None s with
  | Some n => Num (sign * n)
  | None => NaN
  end.

(** [String(n)] for an integer. *)
Definition String_of (n : Z) : string :=
  DecimalString.NilEmpty.string_of_int (Z.to_int n).

(** ** The transport *)

(** A [Response]: the status line, the headers, the body as
    [response.text()] gives it and as [response.json()] parses it
    ([None] when the body is not JSON). *)
Record Response : Type := {
  status : Z;
  statusText : string;
  headers : list (string * string);
  text : string;
  json : option value
}.

(** [response.ok] *)
Definition ok (r : Response) : bool :=
  (200 <=? status r) && (status r <=? 299).

Fixpoint lower_string (s : string) : string :=
  match s with
  | EmptyString => EmptyString
  | String c s' =>
      String (if in_class c [range "A" "Z"]
              then ascii_of_nat (nat_of_ascii c + 32) else c)
             (lower_string s')
  end.

(** [headers.get(name)]: header names compare without case, the values of
    a repeated header are joined with [", "], and an absent header gives
    [null]. *)
Definition headers_get (name : string) (hs : list (string * string))
  : option string :=
  match filter (fun h => (lower_string (fst h) =? lower_string name)%string) hs with
  | [] => None
  | found => Some (join ", " (map snd found))
  end.

(** The URL a call is sent to: [new URL(path, apiUrl)] with the entries
    appended to its [searchParams]. *)
Record URL : Type := {
  url_base : string;
  url_path : string;
  searchParams : list (string * string)
}.

(** The arguments of one [fetch(url, init)]; [call_body] is the value
    that [JSON.stringify] serialises. *)
Record fetch_call : Type := {
  call_url : URL;
  call_method : string;
  call_headers : list (string * string);
  call_body : option value
}.

(** What happens to a call: the promise resolves with a response, it
    rejects, or it is still pending when the client's timer fires. *)
Inductive fetch_result : Type :=
| Resolves (r : Response)
| Rejects (e : thrown)
| Pending.

Definition transport : Type := fetch_call -> fetch_result.

(** Client code runs against the log of the calls made so far and may
    throw. *)
Definition M (A : Type) : Type :=
  list fetch_call -> outcome A * list fetch_call.

Definition ret {A : Type} (a : A) : M A := fun calls => (Returns a, calls).

Definition throw {A : Type} (e : thrown) : M A :=
  fun calls => (Throws e, calls).

Definition bind {A B : Type} (m : M A) (k : A -> M B) : M B :=
  fun calls =>
    match m calls with
    | (Returns a, calls') => k a calls'
    | (Throws e, calls') => (Throws e, calls')
    end.

Notation "x <- m ;; k" := (bind m (fun x => k))
  (at level 61, m at next level, right associativity).

(** [mockFetch.getCallCount()] *)
Definition getCallCount (calls : list fetch_call) : nat := List.length calls.

(** ** [src/client.ts] *)

Record InlineClientConfig : Type := {
  apiUrl : string;
  token : string;
  timeout : option Z
}.

(** The private fields of an [InlineClient]. *)
Record InlineClient : Type := {
  this_apiUrl : string;
  this_token : string;
  this_timeout : Z
}.

(** [s.replace(/\/$/, "")] *)
Fixpoint remove_trailing_slash (s : string) : string :=
  match s with
  | EmptyString => EmptyString
  | String c EmptyString => if Ascii.eqb c "/" then EmptyString else s
  | String c s' => String c (remove_trailing_slash s')
  end.

(** [new InlineClient(config)] *)
Definition new_InlineClient (config : InlineClientConfig)
  : outcome InlineClient :=
  if (apiUrl config =? "")%string
  then Throws (Inline (ValidationError "apiUrl is required"))
  else if (token config =? "")%string
  then Throws (Inline (ValidationError "token is required"))
  else Returns
         {| this_apiUrl := remove_trailing_slash (apiUrl config);
            this_token := token config;
            this_timeout :=
              match timeout config with
              | Some t => if t =? 0 then 30000 else t
              | None => 30000
              end |}.

(** [PublishOptions] as [publish] reads it: besides the declared fields
    the client reads [options.method]. *)
Module PublishOptions.
Record t : Type := {
  headers : option (list (string * string));
  delay : option string;
  notBefore : option string;
  timezone : option string;
  method : option string
}.
End PublishOptions.

Module ListMessagesOptions.
Record t : Type := {
  limit : option Z;
  offset : option Z;
  status : option string
}.
End ListMessagesOptions.

(** A query value: the client passes strings and, in [listMessages],
    numbers. *)
Inductive query_value : Type :=
| QStr (s : string)
| QNum (n : Z).

(** [String(value)] *)
Definition String_ (v : query_value) : string :=
  match v with
  | QStr s => s
  | QNum n => String_of n
  end.

(** The [options] argument of [request]. *)
Record request_options : Type := {
  body : option value;
  query : option (list (string * query_value))
}.

(** JavaScript truthiness of a JSON value. *)
Definition truthy_value (v : value) : bool :=
  match v with
  | VNull => false
  | VBool b => b
  | VNum q => negb (Qeq_bool q 0)
  | VStr s => negb (s =? "")%string
  | VArr _ => true
  | VObj _ => true
  end.

(** The exception [fetch] rejects with once [controller.abort()] has run:
    a [DOMException] named [AbortError], which is not a [TypeError]. *)
Definition AbortError : thrown :=
  Native (OtherError "AbortError" "The operation was aborted.").

(** [await fetch(...)] under the timer set up with
    [setTimeout(() => controller.abort(), this.timeout)]. *)
Definition await_fetch (r : fetch_result) : outcome Response :=
  match r with
  | Resolves response => Returns response
  | Rejects e => Throws e
  | Pending => Throws AbortError
  end.

(** The [try] block of [request] once [fetch] has resolved: the status
    cascade, then [response.json()]. *)
Definition handle_response (response : Response) : outcome value :=
  if status response =? 401 then
    Throws (Inline (AuthenticationError "Invalid or expired token"))
  else if status response =? 403 then
    Throws (Inline (AuthorizationError "Not authorized to access this resource"))
  else if status response =? 404 then
    Throws (Inline (NotFoundError "Resource not found"))
  else if status response =? 429 then
    let retryAfter := headers_get "Retry-After" (headers response) in
    Throws (Inline (RateLimitError "Rate limited"
      (if truthy retryAfter
       then option_map parseInt10 retryAfter
       else None)))
  else if 500 <=? status response then
    let text := text response in
    Throws (Inline (ServerError
      ("Server error: "
       ++ (if (text =? "")%string then statusText response else text))
      (status response)))
  else if negb (ok response) then
    let text := text response in
    Throws (Inline (ApiError
      ("API error: "
       ++ (if (text =? "")%string then statusText response else text))
      (status response)
      text))
  else
    match json response with
    | Some data => Returns data
    | None => Throws (Native (OtherError "SyntaxError" "JSON Parse error"))
    end.

(** The [catch] clause of [request]. *)
Definition catch_clause (error : thrown) : thrown :=
  match error with
  | Inline _ => error
  | Native (TypeError m) =>
      Inline (NetworkError "Network error" (Some (TypeError m)))
  | _ => error
  end.

Section Client.

Variable this : InlineClient.

(** The global [fetch], which the tests replace by a mock. *)
Variable fetch : transport.

(** The call that [request] hands to [fetch].  Every query value the
    client passes is defined, so each entry is appended; [apiUrl] is taken
    to be a URL that [new URL] accepts. *)
Definition build_call (method path : string)
    (options : option request_options) : fetch_call :=
  {| call_url :=
       {| url_base := this_apiUrl this;
          url_path := path;
          searchParams :=
            match options with
            | Some {| query := Some q |} =>
                map (fun kv => (fst kv, String_ (snd kv))) q
            | _ => []
            end |};
     call_method := method;
     call_headers :=
       [ ("Content-Type", "application/json");
         ("Authorization", "Bearer " ++ this_token this) ];
     call_body :=
       match options with
       | Some {| body := Some b |} => if truthy_value b then Some b else None
       | _ => None
       end |}.

Definition request (method path : string)
    (options : option request_options) : M value :=
  fun calls =>
    let call := build_call method path options in
    let attempt :=
      match await_fetch (fetch call) with
      | Returns response => handle_response response
      | Throws e => Throws e
      end in
    (match attempt with
     | Returns data => Returns data
     | Throws error => Throws (catch_clause error)
     end,
     (calls ++ [call])%list).

(** [options?.field] *)
Definition chain {O A : Type} (field : O -> option A) (options : option O)
  : option A :=
  match options with
  | Some o => field o
  | None => None
  end.

(** [if (v) { o = f(v, o) }] for an optional string [v]. *)
Definition when_set {O : Type} (v : option string)
    (f : string -> O -> O) (o : O) : O :=
  match v with
  | Some s => if truthy v then f s o else o
  | None => o
  end.

(** [options?.method ? options.method.toUpperCase() : "POST"] *)
Definition httpMethod (options : option PublishOptions.t) : string :=
  let method := chain PublishOptions.method options in
  match method with
  | Some m => if truthy method then toUpperCase m else "POST"
  | None => "POST"
  end.

Definition publish (callbackUrl : string) (payload : list (string * value))
    (options : option PublishOptions.t) : M value :=
  if (callbackUrl =? "")%string then
    throw (Inline (ValidationError "callbackUrl is required"))
  else
    let encodedUrl := encodeURIComponent callbackUrl in
    let method := chain PublishOptions.method options in
    let httpMethod := httpMethod options in
    if (httpMethod =? "GET")%string then
      let query : list (string * query_value) := [] in
      let query :=
        when_set (chain PublishOptions.delay options)
          (fun v => assign "Queue-Delay" (QStr v)) query in
      let query :=
        when_set (chain PublishOptions.notBefore options)
          (fun v => assign "Queue-notBefore" (QStr v)) query in
      let query :=
        when_set (chain PublishOptions.timezone options)
          (fun v => assign "Queue-timezone" (QStr v)) query in
      let query :=
        when_set method
          (fun _ => assign "Queue-Method" (QStr httpMethod)) query in
      let query :=
        match chain PublishOptions.headers options with
        | Some hs =>
            fold_left
              (fun q kv => assign ("Queue-Forward-" ++ fst kv) (QStr (snd kv)) q)
              hs query
        | None => query
        end in
      request "GET" ("/publish/" ++ encodedUrl)
        (if (0 <? List.length query)%nat
         then Some {| body := None; query := Some query |}
         else None)
    else
      let requestBody : list (string * value) := payload in
      let requestBody :=
        match chain PublishOptions.headers options with
        | Some hs =>
            fold_left
              (fun o kv => assign ("Queue-Forward-" ++ fst kv) (VStr (snd kv)) o)
              hs requestBody
        | None => requestBody
        end in
      let requestBody :=
        when_set (chain PublishOptions.delay options)
          (fun v => assign "Queue-Delay" (VStr v)) requestBody in
      let requestBody :=
        when_set (chain PublishOptions.notBefore options)
          (fun v => assign "Queue-notBefore" (VStr v)) requestBody in
      let requestBody :=
        when_set (chain PublishOptions.timezone options)
          (fun v => assign "Queue-timezone" (VStr v)) requestBody in
      let requestBody :=
        when_set method
          (fun _ => assign "Queue-Method" (VStr httpMethod)) requestBody in
      request httpMethod ("/publish/" ++ encodedUrl)
        (Some {| body := Some (VObj requestBody); query := None |}).

Definition getMessage (messageId : string) : M value :=
  if (messageId =? "")%string then
    throw (Inline (ValidationError "messageId is required"))
  else request "GET" ("/messages/" ++ messageId) None.

Definition listMessages (options : option ListMessagesOptions.t) : M value :=
  let query :=
    [ ("limit",
        QNum (match chain ListMessagesOptions.limit options with
              | Some n => n
              | None => 10
              end));
      ("offset",
        QNum (match chain ListMessagesOptions.offset options with
              | Some n => n
              | None => 0
              end)) ] in
  let query :=
    when_set (chain ListMessagesOptions.status options)
      (fun v => assign "status" (QStr v)) query in
  request "GET" "/messages" (Some {| body := None; query := Some query |}).

Definition getMessages (options : option ListMessagesOptions.t) : M value :=
  listMessages options.

Definition getMessageTimeline (messageId : string) : M value :=
  if (messageId =? "")%string then
    throw (Inline (ValidationError "messageId is required"))
  else request "GET" ("/messages/" ++ messageId ++ "/timeline") None.

Definition retryMessage (messageId : string) : M value :=
  if (messageId =? "")%string then
    throw (Inline (ValidationError "messageId is required"))
  else request "POST" ("/messages/" ++ messageId ++ "/retry") None.

(** Modelled from the spec: [cancelMessage] is called by
    [tests/cancel.test.ts] but its definition is not in the client
    source.  The specification gives it the method [DELETE] and the path
    [/messages/{id}], and has it throw [ValidationError] on the empty
    identifier without a network call; the message is that of the
    sibling operations. *)
Definition cancelMessage (messageId : string) : M value :=
  if (messageId =? "")%string then
    throw (Inline (ValidationError "messageId is required"))
  else request "DELETE" ("/messages/" ++ messageId) None.

Definition getHealth : M value := request "GET" "/health" None.

Definition getHealthReady : M value := request "GET" "/health/ready" None.

Definition getDebugMessages : M value :=
  request "GET" "/debug/messages" None.

Definition getDebugStats : M value := request "GET" "/debug/stats" None.

Definition getErrorStats : M value := request "GET" "/errors/stats" None.

Definition getDeadLetterErrors : M value :=
  request "GET" "/errors/deadletter" None.

(** [response.errors]: reading a property of [null] throws a
    [TypeError]; a value without the property gives [undefined]. *)
Definition dot_errors (response : value) : M (option value) :=
  match response with
  | VNull =>
      throw (Native (TypeError
        "null is not an object (evaluating 'response.errors')"))
  | VObj props => ret (lookup "errors" props)
  | _ => ret None
  end.

Definition getErrorsByCode (code : string) : M (option value) :=
  if (code =? "")%string then
    throw (Inline (ValidationError "code is required"))
  else
    response <- request "GET" ("/errors/by-code/" ++ code) None ;;
    dot_errors response.

Definition getMessageErrors (messageId : string) : M (option value) :=
  if (messageId =? "")%string then
    throw (Inline (ValidationError "messageId is required"))
  else
    response <- request "GET" ("/errors/message/" ++ messageId) None ;;
    dot_errors response.

End Client.

(** ** The specification's wording

    The shapes the specification describes in words, stated independently
    of the patterns of the program so that the two can be compared. *)

(** Every character of a string satisfies a test. *)
Fixpoint all_chars (f : ascii -> bool) (s : string) : bool :=
  match s with
  | EmptyString => true
  | String c s' => f c && all_chars f s'
  end.

(** [s] without the prefix [p], when it starts with [p]. *)
Fixpoint strip_prefix (p s : string) : option string :=
  match p, s with
  | EmptyString, _ => Some s
  | String a p', String b s' =>
      if Ascii.eqb a b then strip_prefix p' s' else None
  | String _ _, EmptyString => None
  end.

Definition is_digit (c : ascii) : bool :=
  (48 <=? nat_of_ascii c)%nat && (nat_of_ascii c <=? 57)%nat.

Definition is_upper (c : ascii) : bool :=
  (65 <=? nat_of_ascii c)%nat && (nat_of_ascii c <=? 90)%nat.

(** "Digits and uppercase letters excluding I, L, O, U." *)
Definition crockford (c : ascii) : bool :=
  (is_digit c || is_upper c)
  && negb (existsb (Ascii.eqb c) ["I"; "L"; "O"; "U"]%char).

(** "Literal prefix [message_] followed by exactly [n] characters, the
    first of them in [[0-7]] and the remaining ones drawn from the
    restricted alphabet." *)
Definition message_id_shape (n : nat) (s : string) : bool :=
  match strip_prefix "message_" s with
  | Some (String c rest) =>
      (String.length (String c rest) =? n)%nat
      && in_class c [range "0" "7"]
      && all_chars crockford rest
  | _ => false
  end.

(** Exactly [n] decimal digits. *)
Definition digits (n : nat) (s : string) : bool :=
  (String.length s =? n)%nat && all_chars is_digit s.

(** "[YYYY-MM-DDTHH:MM:SS[.fff]Z]": the fraction, when there is one, is a
    dot followed by at least one digit. *)
Definition iso_utc_form (s : string) : Prop :=
  exists Y Mo D H Mi S F,
    s = Y ++ "-" ++ Mo ++ "-" ++ D ++ "T" ++ H ++ ":" ++ Mi ++ ":" ++ S
          ++ F ++ "Z"
    /\ digits 4 Y = true /\ digits 2 Mo = true /\ digits 2 D = true
    /\ digits 2 H = true /\ digits 2 Mi = true /\ digits 2 S = true
    /\ (F = "" \/
        exists f, F = "." ++ f /\ f <> "" /\ all_chars is_digit f = true).

(** A numeric epoch written out: a non-empty string of digits. *)
Definition numeric_epoch (s : string) : Prop :=
  s <> "" /\ all_chars is_digit s = true.

(** A date without a time: [YYYY-MM-DD]. *)
Definition date_only (s : string) : Prop :=
  exists Y Mo D,
    s = Y ++ "-" ++ Mo ++ "-" ++ D
    /\ digits 4 Y = true /\ digits 2 Mo = true /\ digits 2 D = true.

(** The date and the time are not separated by [T]: the character after
    the ten of the date is something else, or missing. *)
Definition not_T_separated (s : string) : Prop :=
  String.get 10 s <> Some "T"%char.

(** A value carries no property that the schema does not declare, at any
    depth the schema describes. *)
Fixpoint declared_only (s : schema) (v : value) {struct s} : bool :=
  match s with
  | object shape =>
      match v with
      | VObj props =>
          forallb (fun kv => has_key (fst kv) shape) props
          && forallb (fun ks =>
                        match lookup (fst ks) props with
                        | Some w => declared_only (snd ks) w
                        | None => true
                        end) shape
      | _ => true
      end
  | record valueType =>
      match v with
      | VObj props => forallb (fun kv => declared_only valueType (snd kv)) props
      | _ => true
      end
  | array element =>
      match v with
      | VArr items => forallb (declared_only element) items
      | _ => true
      end
  | optional inner => declared_only inner v
  | nullable inner => declared_only inner v
  | _ => true
  end.

(** No object schema declares a key twice (always so for a schema written
    as an object literal). *)
Fixpoint distinct_shapes (s : schema) : bool :=
  match s with
  | object shape =>
      distinct_keys (map fst shape)
      && forallb (fun ks => distinct_shapes (snd ks)) shape
  | record valueType => distinct_shapes valueType
  | array element => distinct_shapes element
  | optional inner => distinct_shapes inner
  | nullable inner => distinct_shapes inner
  | _ => true
  end.

(** The reserved field a forwarded header becomes, for the header given
    last under that name. *)
Definition forwarded (k : string) (hs : list (string * string))
  : option string :=
  lookup k (map (fun kv => ("Queue-Forward-" ++ fst kv, snd kv)) (rev hs)).

(** The value [publish] gives to the reserved field [k], if the options
    ask for that field. *)
Definition reserved_field (options : option PublishOptions.t) (k : string)
  : option string :=
  let given (field : PublishOptions.t -> option string) :=
    truthy (chain field options) in
  if (k =? "Queue-Method")%string && given PublishOptions.method
  then Some (httpMethod options)
  else if (k =? "Queue-timezone")%string && given PublishOptions.timezone
  then chain PublishOptions.timezone options
  else if (k =? "Queue-notBefore")%string && given PublishOptions.notBefore
  then chain PublishOptions.notBefore options
  else if (k =? "Queue-Delay")%string && given PublishOptions.delay
  then chain PublishOptions.delay options
  else match chain PublishOptions.headers options with
       | Some hs => forwarded k hs
       | None => None
       end.

(** ** Sample data *)

Definition sample_client : InlineClient :=
  {| this_apiUrl := "http://localhost:3000";
     this_token := "test-api-key-12345";
     this_timeout := 30000 |}.

Definition sample_response (st : Z) (hs : list (string * string))
    (body : option value) : Response :=
  {| status := st; statusText := ""; headers := hs; text := "";
     json := body |}.

(** A stand-in for the URL parser: absolute [http] and [https] URLs. *)
Definition sample_URL_ok (s : string) : bool :=
  match strip_prefix "http://" s, strip_prefix "https://" s with
  | None, None => false
  | _, _ => true
  end.

Definition sample_issues (s : schema) (data : value)
  : list (list string * string) := [].

(** The record of the test suite, [tests/validators.test.ts]. *)
Definition sample_message : list (string * value) :=
  [ ("id", VStr "message_000004QYYDCF9PHB9C6VWVHZEZ");
    ("callback_url", VStr "https://example.com/webhook");
    ("payload", VObj [("event", VStr "test")]);
    ("callback_headers", VObj [("X-API-Key", VStr "secret")]);
    ("status", VStr "pending");
    ("created_at", VStr "2025-10-23T10:30:00.000Z");
    ("updated_at", VStr "2025-10-23T10:30:00.000Z");
    ("retry_count", VNum 0);
    ("max_retries", VNum 3) ].

Definition sample_options (method : option string) (delay : option string)
  : PublishOptions.t :=
  {| PublishOptions.headers := Some [("X-A", "1")];
     PublishOptions.delay := delay;
     PublishOptions.notBefore := None;
     PublishOptions.timezone := None;
     PublishOptions.method := method |}.

(** ** [src/schemas.ts], the remaining schemas *)

Definition HealthStatusSchema : schema :=
  object
    [ ("status", enum ["healthy"; "degraded"; "unhealthy"]);
      ("timestamp", ISODateTime);
      ("uptime", number []);
      ("components",
        optional (object
          [ ("http",
              optional (object
                [ ("status", enum ["healthy"; "degraded"; "unhealthy"]);
                  ("secondsSinceUpdate", number []);
                  ("info", string_ []) ])) ])) ].

Definition HealthReadyResponseSchema : schema :=
  object [ ("status", literal "ready"); ("timestamp", number []) ].

Definition RetryMessageResponseSchema : schema :=
  object
    [ ("success", boolean); ("message_id", MessageId); ("message", string_ []) ].

Definition CreateMessageResponseSchema : schema :=
  object
    [ ("id", MessageId); ("created_at", ISODateTime); ("timezone", string_ []) ].

Definition ErrorStatsResponseSchema : schema :=
  object
    [ ("summary",
        object
          [ ("total_errors", number [int; nonnegative]);
            ("error_types", number [int; nonnegative]);
            ("timestamp", ISODateTime) ]);
      ("errors",
        array (object
          [ ("error_code", ErrorCodeSchema);
            ("count", number [int; positive]);
            ("avg_duration_ms", number [nonnegative]) ])) ].

Definition DeadLetterResponseSchema : schema :=
  object
    [ ("summary",
        object
          [ ("total_messages", number [int; nonnegative]);
            ("total_errors", number [int; nonnegative]);
            ("timestamp", ISODateTime) ]);
      ("messages", record (array CallbackErrorSchema)) ].

Definition DebugMessagesResponseSchema : schema :=
  object
    [ ("summary",
        object
          [ ("total", number [int; nonnegative]);
            ("pending", number [int; nonnegative]);
            ("processing", number [int; nonnegative]);
            ("completed", number [int; nonnegative]);
            ("failed", number [int; nonnegative]);
            ("dead_letter", number [int; nonnegative]) ]);
      ("messages",
        object
          [ ("pending", array MessageResponseSchema);
            ("processing", array MessageResponseSchema);
            ("completed", array MessageResponseSchema);
            ("failed", array MessageResponseSchema);
            ("dead_letter", array MessageResponseSchema) ]) ].

Definition DebugStatsResponseSchema : schema :=
  object
    [ ("timestamp", ISODateTime);
      ("database", string_ []);
      ("storage", string_ []);
      ("location", string_ []);
      ("note", string_ []) ].

(** The schemas [src/schemas.ts] exports. *)
Definition exported_schemas : list schema :=
  [ ErrorCodeSchema; EventTypeSchema; CallbackErrorSchema;
    MessageResponseSchema; HealthStatusSchema; HealthReadyResponseSchema;
    RetryMessageResponseSchema; TimelineEventSchema; TimelineResponseSchema;
    CreateMessageResponseSchema; ErrorStatsResponseSchema;
    DeadLetterResponseSchema; DebugMessagesResponseSchema;
    DebugStatsResponseSchema ].

(** ** [src/validators.ts], the wrapper that does not throw *)

(** What [validateWithSchema] returns: [{ data }] or [{ error }], the
    error being zod's list of issues. *)
Inductive validation : Type :=
| data_ (data : option value)
| error_ (error : list (list string * string)).

Section ValidateWithSchema.

Variable URL_ok : string -> bool.
Variable issues : schema -> value -> list (list string * string).

Definition validateWithSchema (s : schema) (data : value) : validation :=
  match safeParse URL_ok s (Some data) with
  | Some result => data_ result
  | None => error_ (issues s data)
  end.

End ValidateWithSchema.

(** ** The operations of the client, as one type

    A way to speak of every public method of [InlineClient] at once. *)
Inductive operation : Type :=
| Publish (callbackUrl : string) (payload : list (string * value))
    (options : option PublishOptions.t)
| GetMessage (messageId : string)
| ListMessages (options : option ListMessagesOptions.t)
| GetMessages (options : option ListMessagesOptions.t)
| GetMessageTimeline (messageId : string)
| RetryMessage (messageId : string)
| GetHealth
| GetHealthReady
| GetDebugMessages
| GetDebugStats
| GetErrorStats
| GetDeadLetterErrors
| GetErrorsByCode (code : string)
| GetMessageErrors (messageId : string).

(** The call [client.<operation>(...)]; the operations that return the
    body return a defined value. *)
Definition perform (this : InlineClient) (fetch : transport)
    (op : operation) : M (option value) :=
  let defined (m : M value) : M (option value) :=
    v <- m ;; ret (Some v) in
  match op with
  | Publish callbackUrl payload options =>
      defined (publish this fetch callbackUrl payload options)
  | GetMessage messageId => defined (getMessage this fetch messageId)
  | ListMessages options => defined (listMessages this fetch options)
  | GetMessages options => defined (getMessages this fetch options)
  | GetMessageTimeline messageId =>
      defined (getMessageTimeline this fetch messageId)
  | RetryMessage messageId => defined (retryMessage this fetch messageId)
  | GetHealth => defined (getHealth this fetch)
  | GetHealthReady => defined (getHealthReady this fetch)
  | GetDebugMessages => defined (getDebugMessages this fetch)
  | GetDebugStats => defined (getDebugStats this fetch)
  | GetErrorStats => defined (getErrorStats this fetch)
  | GetDeadLetterErrors => defined (getDeadLetterErrors this fetch)
  | GetErrorsByCode code => getErrorsByCode this fetch code
  | GetMessageErrors messageId => getMessageErrors this fetch messageId
  end.

(** The string argument an operation requires to be non-empty, if it has
    one. *)
Definition required_argument (op : operation) : option string :=
  match op with
  | Publish callbackUrl _ _ => Some callbackUrl
  | GetMessage messageId => Some messageId
  | GetMessageTimeline messageId => Some messageId
  | RetryMessage messageId => Some messageId
  | GetErrorsByCode code => Some code
  | GetMessageErrors messageId => Some messageId
  | _ => None
  end.

(** The HTTP method and the path of the endpoint table. *)
Definition endpoint (op : operation) : string * string :=
  match op with
  | Publish callbackUrl _ options =>
      (httpMethod options, "/publish/" ++ encodeURIComponent callbackUrl)
  | GetMessage messageId => ("GET", "/messages/" ++ messageId)
  | ListMessages _ => ("GET", "/messages")
  | GetMessages _ => ("GET", "/messages")
  | GetMessageTimeline messageId =>
      ("GET", "/messages/" ++ messageId ++ "/timeline")
  | RetryMessage messageId => ("POST", "/messages/" ++ messageId ++ "/retry")
  | GetHealth => ("GET", "/health")
  | GetHealthReady => ("GET", "/health/ready")
  | GetDebugMessages => ("GET", "/debug/messages")
  | GetDebugStats => ("GET", "/debug/stats")
  | GetErrorStats => ("GET", "/errors/stats")
  | GetDeadLetterErrors => ("GET", "/errors/deadletter")
  | GetErrorsByCode code => ("GET", "/errors/by-code/" ++ code)
  | GetMessageErrors messageId => ("GET", "/errors/message/" ++ messageId)
  end.

(** What an operation does with the body that [request] returns: the two
    errors operations read its [errors] property, the others return it. *)
Definition result_of (op : operation) (response : value) : M (option value) :=
  match op with
  | GetErrorsByCode _ => dot_errors response
  | GetMessageErrors _ => dot_errors response
  | _ => ret (Some response)
  end.

(** ** Helpers for the further properties *)

(** The shape of an object schema. *)
Definition shape_of (s : schema) : list (string * schema) :=
  match s with
  | object shape => shape
  | _ => []
  end.

(** A schema that lets a key be absent: [unknown], [optional], and
    [nullable] over one of those. *)
Fixpoint accepts_undefined (s : schema) : bool :=
  match s with
  | unknown => true
  | optional _ => true
  | nullable inner => accepts_undefined inner
  | _ => false
  end.

(** A schema that rejects [null]: every schema but [unknown],
    [nullable], and [optional] over one of those. *)
Fixpoint rejects_null (s : schema) : bool :=
  match s with
  | unknown => false
  | nullable _ => false
  | optional inner => rejects_null inner
  | _ => true
  end.

(** [s.endsWith("/")] *)
Fixpoint ends_with_slash (s : string) : bool :=
  match s with
  | EmptyString => false
  | String c EmptyString => Ascii.eqb c "/"
  | String _ s' => ends_with_slash s'
  end.


(** The callback error and the timeline of the test suite. *)
Definition sample_callback_error : list (string * value) :=
  [ ("id", VStr "err_123");
    ("message_id", VStr "message_000004QYYDCF9PHB9C6VWVHZEZ");
    ("error_code", VStr "TIMEOUT");
    ("error_message", VStr "Request timed out");
    ("created_at", VStr "2025-10-23T10:30:00.000Z") ].

Definition sample_event (details : list (string * value))
  : list (string * value) :=
  [ ("type", VStr "MESSAGE_RECEIVED");
    ("timestamp", VStr "2025-10-23T10:30:00.000Z") ] ++ details.

Definition sample_timeline : list (string * value) :=
  [ ("message_id", VStr "message_01K88AMDZT4G9SBP1AQ51V5HSP");
    ("event_count", VNum 1);
    ("events", VArr [VObj (sample_event [])]) ].

(** The value of a hexadecimal digit [0-9A-F]. *)
Definition hex_value (c : ascii) : nat :=
  if in_class c [range "0" "9"] then nat_of_ascii c - 48
  else nat_of_ascii c - 55.

(** A decoder for what [encodeURIComponent] produces: [%XX] below 128 is
    one character, [%XX%YY] is the two-byte UTF-8 form of a character
    from U+0080 to U+00FF, anything else stands for itself.  It serves to
    show that the encoding loses nothing. *)
Fixpoint decode_component (s : string) : string :=
  match s with
  | EmptyString => EmptyString
  | String "%" (String a (String b rest)) =>
      let n := (16 * hex_value a + hex_value b)%nat in
      if (n <? 128)%nat then String (ascii_of_nat n) (decode_component rest)
      else
        match rest with
        | String "%" (String c (String d rest')) =>
            String (ascii_of_nat
                      ((n - 192) * 64 + (16 * hex_value c + hex_value d - 128)))
                   (decode_component rest')
        | _ => rest
        end
  | String c rest => String c (decode_component rest)
  end.

(* ================================================================== *)
(** * Part II: properties                                              *)
(* ================================================================== *)

(** ** Strings *)

Lemma append_nil_r (s : string) : s ++ "" = s.
Proof. induction s as [|c s IH]; simpl; [reflexivity | now rewrite IH]. Qed.

Lemma append_assoc (a b c : string) : (a ++ b) ++ c = a ++ (b ++ c).
Proof. induction a as [|x a IH]; simpl; [reflexivity | now rewrite IH]. Qed.

Lemma append_eq_nil (a b : string) : a ++ b = "" -> a = "" /\ b = "".
Proof. destruct a; simpl; [auto | discriminate]. Qed.

Lemma append_length (a b : string) :
  String.length (a ++ b) = (String.length a + String.length b)%nat.
Proof. induction a as [|x a IH]; simpl; [reflexivity | now rewrite IH]. Qed.

Lemma append_inv_head (p a b : string) : p ++ a = p ++ b -> a = b.
Proof.
  induction p as [|x p IH]; simpl; intros H; [assumption|].
  injection H as H. auto.
Qed.


(** ** The matcher decides the language of a pattern *)
Module RegexFacts.

Lemma nullable_Lang r : Regex.nullable r = true <-> Lang r "".
Proof.
  split.
  - induction r; simpl; intros H; try discriminate.
    + constructor.
    + apply andb_true_iff in H as [H1 H2].
      change "" with ("" ++ ""). constructor; auto.
    + apply orb_true_iff in H as [H|H];
        [apply LAltL | apply LAltR]; auto.
    + constructor.
  - intros H. remember "" as s eqn:E.
    induction H; simpl; subst; try discriminate; auto.
    + apply append_eq_nil in E as [-> ->].
      rewrite IHLang1, IHLang2; auto.
    + rewrite IHLang; auto.
    + rewrite IHLang; auto using orb_true_r.
Qed.

Lemma deriv_sound c r : forall s, Lang (deriv c r) s -> Lang r (String c s).
Proof.
  induction r; simpl; intros s H.
  - inversion H.
  - inversion H.
  - destruct (in_class c cls) eqn:E; inversion H; subst.
    now constructor.
  - destruct (Regex.nullable r1) eqn:N.
    + inversion H as [| |? ? s1 s2 H1 H2| ? ? ? HL | ? ? ? HR | |]; subst.
      * inversion HL as [| |? ? s1 s2 H1 H2| | | |]; subst.
        change (String c (s1 ++ s2)) with (String c s1 ++ s2).
        constructor; auto.
      * change (String c s) with ("" ++ String c s).
        constructor; [now apply nullable_Lang | auto].
    + inversion H as [| |? ? s1 s2 H1 H2| | | |]; subst.
      change (String c (s1 ++ s2)) with (String c s1 ++ s2).
      constructor; auto.
  - inversion H; subst; [apply LAltL | apply LAltR]; auto.
  - inversion H as [| |? ? s1 s2 H1 H2| | | |]; subst.
    change (String c (s1 ++ s2)) with (String c s1 ++ s2).
    constructor; auto.
Qed.

Lemma deriv_complete c r s0 :
  Lang r s0 -> forall s, s0 = String c s -> Lang (deriv c r) s.
Proof.
  induction 1 as [ | c' cls Hc | r1 r2 s1 s2 H1 IH1 H2 IH2
                 | r1 r2 s' H1 IH1 | r1 r2 s' H2 IH2 | r
                 | r s1 s2 H1 IH1 H2 IH2 ];
    intros s E; simpl.
  - discriminate.
  - injection E as -> <-. rewrite Hc. constructor.
  - destruct s1 as [|x s1]; simpl in E.
    + subst s2.
      apply nullable_Lang in H1. rewrite H1.
      apply LAltR. auto.
    + injection E as -> <-.
      destruct (Regex.nullable r1);
        [apply LAltL|]; constructor; auto.
  - apply LAltL; auto.
  - apply LAltR; auto.
  - discriminate.
  - destruct s1 as [|x s1]; simpl in E.
    + auto.
    + injection E as -> <-. constructor; auto.
Qed.

Theorem test_Lang r : forall s, test r s = true <-> Lang r s.
Proof.
  intros s. revert r.
  induction s as [|c s IH]; intros r; simpl.
  - apply nullable_Lang.
  - rewrite IH. split.
    + apply deriv_sound.
    + intros H. eapply deriv_complete; eauto.
Qed.

(** *** What the building blocks denote *)

Lemma Lang_Chars cls s :
  Lang (Chars cls) s <-> exists c, s = String c "" /\ in_class c cls = true.
Proof.
  split.
  - inversion 1; subst; eauto.
  - intros (c & -> & H). now constructor.
Qed.

Lemma Lang_Cat r1 r2 s :
  Lang (Cat r1 r2) s <->
  exists s1 s2, s = s1 ++ s2 /\ Lang r1 s1 /\ Lang r2 s2.
Proof.
  split.
  - inversion 1; subst; eauto.
  - intros (s1 & s2 & -> & H1 & H2). now constructor.
Qed.

Lemma Lang_Alt r1 r2 s : Lang (Alt r1 r2) s <-> Lang r1 s \/ Lang r2 s.
Proof.
  split.
  - inversion 1; subst; auto.
  - intros [H|H]; [apply LAltL | apply LAltR]; auto.
Qed.

Lemma Lang_Eps s : Lang Eps s <-> s = "".
Proof. split; [inversion 1; auto | intros ->; constructor]. Qed.

Lemma Lang_Chr c s : Lang (Chr c) s <-> s = String c "".
Proof.
  unfold Chr. rewrite Lang_Chars. split.
  - intros (x & -> & H). unfold in_class, one, in_range in H. simpl in H.
    rewrite orb_false_r in H. apply andb_true_iff in H as [H1 H2].
    apply Nat.leb_le in H1, H2.
    assert (E : nat_of_ascii x = nat_of_ascii c) by lia.
    apply (f_equal ascii_of_nat) in E.
    rewrite !ascii_nat_embedding in E. now subst.
  - intros ->. exists c. split; [reflexivity|].
    unfold in_class, one, in_range. simpl.
    now rewrite Nat.leb_refl.
Qed.

Lemma Lang_Lit p s : Lang (Lit p) s <-> s = p.
Proof.
  revert s. induction p as [|c p IH]; intros s; simpl.
  - apply Lang_Eps.
  - rewrite Lang_Cat. split.
    + intros (s1 & s2 & -> & H1 & H2).
      apply Lang_Chr in H1. apply IH in H2. now subst.
    + intros ->. exists (String c ""), p. repeat split.
      * now apply Lang_Chr.
      * now apply IH.
Qed.

(** [cls{n}]: exactly [n] characters, all of the class. *)
Lemma Lang_Rep_Chars cls n s :
  Lang (Rep n (Chars cls)) s <->
  String.length s = n /\ all_chars (fun c => in_class c cls) s = true.
Proof.
  revert s. induction n as [|n IH]; intros s; simpl.
  - rewrite Lang_Eps. split.
    + intros ->. auto.
    + intros [H _]. destruct s; [reflexivity | discriminate].
  - rewrite Lang_Cat. split.
    + intros (s1 & s2 & -> & H1 & H2).
      apply Lang_Chars in H1 as (c & -> & Hc). apply IH in H2 as [Hl Ha].
      simpl. rewrite Hc, Ha, Hl. auto.
    + intros [Hl Ha]. destruct s as [|c s]; [discriminate|].
      simpl in *. apply andb_true_iff in Ha as [Hc Ha].
      exists (String c ""), s. repeat split.
      * apply Lang_Chars; eauto.
      * apply IH. split; [lia | assumption].
Qed.

(** [cls+]: at least one character, all of the class. *)
Lemma Lang_Star_Chars cls s :
  Lang (Star (Chars cls)) s <-> all_chars (fun c => in_class c cls) s = true.
Proof.
  split.
  - intros H. remember (Star (Chars cls)) as r eqn:E.
    induction H; try discriminate; [reflexivity|].
    injection E as ->.
    apply Lang_Chars in H as (c & -> & Hc). simpl.
    rewrite Hc. auto.
  - induction s as [|c s IH]; simpl; intros H.
    + constructor.
    + apply andb_true_iff in H as [Hc H].
      change (String c s) with (String c "" ++ s).
      constructor; [now constructor | auto].
Qed.

Lemma Lang_Plus_Chars cls s :
  Lang (Plus (Chars cls)) s <->
  s <> "" /\ all_chars (fun c => in_class c cls) s = true.
Proof.
  unfold Plus. rewrite Lang_Cat. split.
  - intros (s1 & s2 & -> & H1 & H2).
    apply Lang_Chars in H1 as (c & -> & Hc).
    apply Lang_Star_Chars in H2. simpl. rewrite Hc, H2.
    split; [discriminate | reflexivity].
  - intros [Hn Ha]. destruct s as [|c s]; [congruence|].
    simpl in Ha. apply andb_true_iff in Ha as [Hc Ha].
    exists (String c ""), s. repeat split.
    + apply Lang_Chars; eauto.
    + now apply Lang_Star_Chars.
Qed.

End RegexFacts.

Import RegexFacts.

(** ** Message identifiers *)

Lemma strip_prefix_Some p s r : strip_prefix p s = Some r <-> s = p ++ r.
Proof.
  revert s. induction p as [|a p IH]; intros s; simpl.
  - split; [now intros [= ->] | now intros ->].
  - destruct s as [|b s].
    + split; discriminate.
    + destruct (Ascii.eqb_spec a b) as [->|N].
      * rewrite IH. split; [now intros -> | now intros [= ->]].
      * split; [discriminate | intros [= E _]; congruence].
Qed.

(** The class [[0-9A-HJKMNP-TV-Z]] is the alphabet the specification
    describes, and it has 32 symbols. *)
Lemma ulid_alphabet_crockford c : in_class c ulid_alphabet = crockford c.
Proof. destruct c as [[] [] [] [] [] [] [] []]; reflexivity. Qed.

Lemma ulid_alphabet_size :
  List.length
    (filter (fun c => in_class c ulid_alphabet)
            (map ascii_of_nat (seq 0 256))) = 32%nat.
Proof. reflexivity. Qed.

Lemma class_digit c : in_class c [range "0" "9"] = is_digit c.
Proof. destruct c as [[] [] [] [] [] [] [] []]; reflexivity. Qed.

Lemma all_chars_ext f g s :
  (forall c, f c = g c) -> all_chars f s = all_chars g s.
Proof.
  intros E. induction s as [|c s IH]; simpl; [reflexivity|].
  now rewrite E, IH.
Qed.

(** The pattern of the program accepts exactly the identifiers with 26
    characters after the prefix. *)
Lemma message_id_pattern_shape s :
  test message_id_pattern s = message_id_shape 26 s.
Proof.
  apply eq_true_iff_eq. rewrite test_Lang.
  unfold message_id_pattern, message_id_shape.
  rewrite Lang_Cat. split.
  - intros (p & q & -> & Hp & Hq).
    apply Lang_Lit in Hp. subst p.
    apply Lang_Cat in Hq as (a & b & -> & Ha & Hb).
    apply Lang_Chars in Ha as (c & -> & Hc).
    apply Lang_Rep_Chars in Hb as [Hl Hb].
    replace (strip_prefix "message_" ("message_" ++ String c "" ++ b))
      with (Some (String c b)) by (symmetry; now apply strip_prefix_Some).
    rewrite (all_chars_ext _ crockford) in Hb
      by apply ulid_alphabet_crockford.
    simpl String.length. rewrite Hl, Hc, Hb. reflexivity.
  - destruct (strip_prefix "message_" s) as [[|c rest]|] eqn:E;
      try discriminate.
    apply strip_prefix_Some in E. subst s.
    intros H. apply andb_true_iff in H as [H Ha].
    apply andb_true_iff in H as [Hl Hc].
    apply Nat.eqb_eq in Hl. simpl in Hl.
    exists "message_", (String c rest). repeat split.
    + now apply Lang_Lit.
    + apply Lang_Cat. exists (String c ""), rest. repeat split.
      * apply Lang_Chars; eauto.
      * apply Lang_Rep_Chars. split; [lia|].
        rewrite (all_chars_ext _ crockford); auto.
        apply ulid_alphabet_crockford.
Qed.

Section MessageId.

Variable URL_ok : string -> bool.

Lemma parseMessageId_test id :
  parseMessageId URL_ok id =
  if test message_id_pattern id then Returns id
  else Throws (Error
    "Invalid message ID format. Expected: message_[0-7][0-9A-HJKMNP-TV-Z]{25}").
Proof.
  unfold parseMessageId. simpl.
  destruct (test message_id_pattern id); reflexivity.
Qed.

Lemma MessageId_test id :
  safeParse URL_ok MessageId (Some (VStr id)) =
  if test message_id_pattern id then Some (Some (VStr id)) else None.
Proof.
  simpl. destruct (test message_id_pattern id); reflexivity.
Qed.

End MessageId.

(** ** Timestamps *)

Lemma digits_Lang n s : Lang (Rep n digit) s <-> digits n s = true.
Proof.
  unfold digit, digits. rewrite Lang_Rep_Chars.
  rewrite (all_chars_ext _ is_digit) by apply class_digit.
  rewrite andb_true_iff, Nat.eqb_eq. reflexivity.
Qed.

Lemma fraction_Lang F :
  Lang (Opt (Cat (Chr ".") (Plus digit))) F <->
  F = "" \/ exists f, F = "." ++ f /\ f <> "" /\ all_chars is_digit f = true.
Proof.
  unfold Opt, digit. rewrite Lang_Alt, Lang_Eps, Lang_Cat.
  split; (intros [H|H]; [now left | right]).
  - destruct H as (a & f & -> & Ha & Hf).
    apply Lang_Chr in Ha. subst a.
    apply Lang_Plus_Chars in Hf as [Hn Hf].
    rewrite (all_chars_ext _ is_digit) in Hf by apply class_digit.
    eauto.
  - destruct H as (f & -> & Hn & Hf).
    exists ".", f. repeat split.
    + now apply Lang_Chr.
    + apply Lang_Plus_Chars. split; [assumption|].
      rewrite (all_chars_ext _ is_digit); auto. apply class_digit.
Qed.

(** The pattern behind [datetime()] denotes the form the specification
    writes as [YYYY-MM-DDTHH:MM:SS[.fff]Z]. *)
Lemma datetimeRegex_form s : test datetimeRegex s = true <-> iso_utc_form s.
Proof.
  rewrite test_Lang. unfold datetimeRegex, iso_utc_form. split.
  - intros H.
    repeat match goal with
    | H : Lang (Cat _ _) _ |- _ =>
        apply Lang_Cat in H as (? & ? & -> & ? & ?)
    | H : Lang (Chr _) _ |- _ => apply Lang_Chr in H; subst
    | H : Lang (Rep _ digit) _ |- _ => apply digits_Lang in H
    | H : Lang (Opt _) _ |- _ => apply fraction_Lang in H
    end.
    do 7 eexists. split; [reflexivity|]. repeat split; eassumption.
  - intros (Y & Mo & D & H & Mi & S & F & -> & HY & HMo & HD & HH & HMi & HS & HF).
    repeat (apply Lang_Cat; do 2 eexists; split; [reflexivity|]; split);
      try (now apply digits_Lang); try (now apply Lang_Chr).
    now apply fraction_Lang.
Qed.

Lemma digits_length n s : digits n s = true -> String.length s = n.
Proof.
  unfold digits. intros H. apply andb_true_iff in H as [H _].
  now apply Nat.eqb_eq.
Qed.

Lemma digits_all n s : digits n s = true -> all_chars is_digit s = true.
Proof. unfold digits. intros H. now apply andb_true_iff in H as [_ H]. Qed.

(** A string of known length, spelled out character by character. *)
Ltac spell H :=
  match type of H with
  | String.length ?s = _ =>
      repeat (destruct s as [|? s]; simpl in H; try discriminate H);
      clear H
  end.

(** Where the separators of an accepted timestamp sit, and how short it
    can be. *)
Lemma iso_utc_form_layout s :
  iso_utc_form s ->
  String.get 4 s = Some "-"%char /\ String.get 10 s = Some "T"%char
  /\ (20 <= String.length s)%nat.
Proof.
  intros (Y & Mo & D & H & Mi & S & F & -> & HY & HMo & HD & HH & HMi & HS & _).
  apply digits_length in HY, HMo, HD, HH, HMi, HS.
  spell HY. spell HMo. spell HD. spell HH. spell HMi. spell HS.
  simpl. repeat split. rewrite append_length. simpl. lia.
Qed.

Lemma all_chars_get f s : forall n c,
  all_chars f s = true -> String.get n s = Some c -> f c = true.
Proof.
  induction s as [|x s IH]; intros n c Ha Hg; simpl in *.
  - discriminate.
  - apply andb_true_iff in Ha as [Hx Ha].
    destruct n; [injection Hg as <-; assumption | eauto].
Qed.

Lemma rejected_forms s :
  numeric_epoch s \/ date_only s \/ not_T_separated s ->
  test datetimeRegex s = false.
Proof.
  intros H. apply not_true_is_false. intros A.
  apply datetimeRegex_form, iso_utc_form_layout in A as (G4 & G10 & L).
  destruct H as [[_ Hd] | [(Y & Mo & D & -> & HY & HMo & HD) | HT]].
  - pose proof (all_chars_get _ _ _ _ Hd G4) as C. discriminate C.
  - apply digits_length in HY, HMo, HD.
    rewrite !append_length, HY, HMo, HD in L. simpl in L. lia.
  - now apply HT.
Qed.

Section Timestamp.

Variable URL_ok : string -> bool.

Lemma validateTimestamp_test ts :
  validateTimestamp URL_ok ts =
  if test datetimeRegex ts then Returns ts
  else Throws (Error "Invalid datetime").
Proof.
  unfold validateTimestamp. simpl.
  destruct (test datetimeRegex ts); reflexivity.
Qed.

Lemma ISODateTime_test ts :
  safeParse URL_ok ISODateTime (Some (VStr ts)) =
  if test datetimeRegex ts then Some (Some (VStr ts)) else None.
Proof. simpl. destruct (test datetimeRegex ts); reflexivity. Qed.

End Timestamp.

(** ** JSON values and zod schemas *)

(** Induction on values and on schemas, through the lists nested in
    them. *)
Lemma value_ind' (P : value -> Prop) :
  P VNull -> (forall b, P (VBool b)) -> (forall q, P (VNum q)) ->
  (forall s, P (VStr s)) ->
  (forall items, Forall P items -> P (VArr items)) ->
  (forall props, Forall (fun kv => P (snd kv)) props -> P (VObj props)) ->
  forall v, P v.
Proof.
  intros Hnull Hbool Hnum Hstr Harr Hobj.
  fix IH 1. intros [ | b | q | s | items | props ].
  - exact Hnull.
  - apply Hbool.
  - apply Hnum.
  - apply Hstr.
  - apply Harr. induction items as [|x items IHi]; constructor.
    + apply IH.
    + exact IHi.
  - apply Hobj. induction props as [|[k x] props IHp]; constructor.
    + apply IH.
    + exact IHp.
Qed.

Lemma schema_ind' (P : schema -> Prop) :
  (forall cs, P (string_ cs)) -> (forall cs, P (number cs)) -> P boolean ->
  (forall os, P (enum os)) -> (forall l, P (literal l)) -> P unknown ->
  (forall vt, P vt -> P (record vt)) ->
  (forall el, P el -> P (array el)) ->
  (forall shape, Forall (fun ks => P (snd ks)) shape -> P (object shape)) ->
  (forall i, P i -> P (optional i)) ->
  (forall i, P i -> P (nullable i)) ->
  forall s, P s.
Proof.
  intros Hs Hn Hb He Hl Hu Hr Ha Ho Hop Hnu.
  fix IH 1. intros [ cs | cs | | os | l | | vt | el | shape | i | i ].
  - apply Hs.
  - apply Hn.
  - exact Hb.
  - apply He.
  - apply Hl.
  - exact Hu.
  - apply Hr, IH.
  - apply Ha, IH.
  - apply Ho. induction shape as [|[k x] shape IHs]; constructor.
    + apply IH.
    + exact IHs.
  - apply Hop, IH.
  - apply Hnu, IH.
Qed.

(** ** Objects as property lists *)

Lemma lookup_In {A} k (ps : list (string * A)) v :
  lookup k ps = Some v -> In (k, v) ps.
Proof.
  induction ps as [|[k' v'] ps IH]; simpl; [discriminate|].
  destruct (String.eqb_spec k k') as [->|N].
  - intros [= ->]. now left.
  - intros H. right. auto.
Qed.

Lemma has_key_In {A} k (ps : list (string * A)) :
  has_key k ps = true <-> exists v, In (k, v) ps.
Proof.
  unfold has_key. rewrite existsb_exists. split.
  - intros ([k' v] & Hin & E). simpl in E. apply String.eqb_eq in E.
    subst. eauto.
  - intros (v & Hin). exists (k, v). split; [assumption|].
    apply String.eqb_refl.
Qed.

Lemma has_key_lookup {A} k (ps : list (string * A)) :
  has_key k ps = true <-> exists v, lookup k ps = Some v.
Proof.
  induction ps as [|[k' v'] ps IH]; simpl.
  - split; [discriminate | intros [? ?]; discriminate].
  - destruct (String.eqb_spec k k') as [->|N]; simpl.
    + split; eauto.
    + exact IH.
Qed.

Lemma distinct_keys_lookup {A} (ps : list (string * A)) k v :
  distinct_keys (map fst ps) = true -> In (k, v) ps -> lookup k ps = Some v.
Proof.
  induction ps as [|[k' v'] ps IH]; simpl; [contradiction|].
  intros D [E|Hin].
  - injection E as -> ->. now rewrite String.eqb_refl.
  - apply andb_true_iff in D as [Hn D].
    destruct (String.eqb_spec k k') as [->|N]; [|auto].
    apply negb_true_iff in Hn.
    assert (X : existsb (String.eqb k') (map fst ps) = true).
    { apply existsb_exists. exists k'. split.
      - apply in_map_iff. exists (k', v). auto.
      - apply String.eqb_refl. }
    congruence.
Qed.

Lemma same_items_refl (xs : list value) :
  Forall (fun x => same_value x x = true) xs ->
  same_items same_value xs xs = true.
Proof.
  induction 1 as [|x xs Hx _ IH]; simpl; [reflexivity|].
  now rewrite Hx, IH.
Qed.

Lemma same_value_refl v : well_formed v = true -> same_value v v = true.
Proof.
  induction v as [ | b | q | s | items IH | props IH ] using value_ind';
    simpl; intros W.
  - reflexivity.
  - apply Bool.eqb_reflx.
  - apply Qeq_bool_refl.
  - apply String.eqb_refl.
  - apply same_items_refl.
    rewrite forallb_forall in W. rewrite Forall_forall in IH |- *.
    auto.
  - apply andb_true_iff in W as [D W].
    rewrite forallb_forall in W. rewrite Forall_forall in IH.
    apply andb_true_iff. split; apply forallb_forall; intros [k v] Hin; simpl.
    + rewrite (distinct_keys_lookup _ _ _ D Hin).
      apply (IH (k, v) Hin), (W (k, v) Hin).
    + apply has_key_In. eauto.
Qed.

Lemma Forall2_left {A B} {R : A -> B -> Prop} {l1 l2 a} :
  Forall2 R l1 l2 -> In a l1 -> exists b, In b l2 /\ R a b.
Proof.
  induction 1 as [|x y l1 l2 Hxy _ IH]; simpl; [contradiction|].
  intros [<-|Hin]; [eauto|].
  destruct (IH Hin) as (b & Hb & Rb). eauto.
Qed.

Lemma Forall2_right {A B} {R : A -> B -> Prop} {l1 l2 b} :
  Forall2 R l1 l2 -> In b l2 -> exists a, In a l1 /\ R a b.
Proof.
  induction 1 as [|x y l1 l2 Hxy _ IH]; simpl; [contradiction|].
  intros [<-|Hin]; [eauto|].
  destruct (IH Hin) as (a & Ha & Ra). eauto.
Qed.

Lemma Forall2_weaken {A B} (R R' : A -> B -> Prop) l1 l2 :
  Forall2 R l1 l2 ->
  (forall a b, In b l2 -> R a b -> R' a b) ->
  Forall2 R' l1 l2.
Proof.
  induction 1 as [|x y l1 l2 Hxy _ IH]; intros W; constructor.
  - apply W; simpl; auto.
  - apply IH. intros a b Hin. apply W. simpl. auto.
Qed.

(** ** What the container loops of zod produce *)

Lemma parse_entries_Forall2 f ps : forall out,
  (forall v, f v <> Some None) ->
  parse_entries f ps = Some out ->
  Forall2 (fun o p => fst o = fst p /\ f (snd p) = Some (Some (snd o))) out ps.
Proof.
  intros out D. revert out.
  induction ps as [|[k v] ps IH]; simpl; intros out.
  - intros [= <-]. constructor.
  - destruct (f v) as [[v'|]|] eqn:E; [| now apply D in E | discriminate].
    destruct (parse_entries f ps) as [out'|]; [|discriminate].
    intros [= <-]. constructor; auto.
Qed.

Lemma parse_items_Forall2 f items : forall out,
  parse_items f items = Some out ->
  Forall2 (fun o p => f p = Some (Some o)) out items.
Proof.
  induction items as [|v items IH]; simpl; intros out.
  - intros [= <-]. constructor.
  - destruct (f v) as [[v'|]|] eqn:E; try discriminate.
    destruct (parse_items f items) as [out'|]; [|discriminate].
    intros [= <-]. constructor; auto.
Qed.

Lemma parse_shape_out parse props sh : forall out,
  parse_shape parse props sh = Some out ->
  forall k v', In (k, v') out ->
  exists sk, In (k, sk) sh /\ parse sk (lookup k props) = Some (Some v').
Proof.
  induction sh as [|[k0 s0] sh IH]; simpl; intros out.
  - intros [= <-] k v' [].
  - destruct (parse s0 (lookup k0 props)) as [[v0|]|] eqn:E; try discriminate;
      destruct (parse_shape parse props sh) as [out'|]; try discriminate;
      intros [= <-] k v' Hin.
    + destruct Hin as [[= <- <-]|Hin]; [eauto|].
      destruct (IH _ eq_refl _ _ Hin) as (sk & Hs & Hp). eauto.
    + destruct (IH _ eq_refl _ _ Hin) as (sk & Hs & Hp). eauto.
Qed.

Lemma parse_shape_in parse props sh : forall out,
  parse_shape parse props sh = Some out ->
  forall k sk, In (k, sk) sh ->
  exists o, parse sk (lookup k props) = Some o
            /\ forall v', o = Some v' -> In (k, v') out.
Proof.
  induction sh as [|[k0 s0] sh IH]; simpl; intros out.
  - intros _ k sk [].
  - destruct (parse s0 (lookup k0 props)) as [[v0|]|] eqn:E; try discriminate;
      destruct (parse_shape parse props sh) as [out'|]; try discriminate;
      intros [= <-] k sk [[= <- <-]|Hin].
    + exists (Some v0). split; [assumption|]. intros v' [= <-]. now left.
    + destruct (IH _ eq_refl _ _ Hin) as (o & Ho & Hout).
      exists o. split; [assumption|]. intros v' Hv. right. auto.
    + exists None. split; [assumption|]. discriminate.
    + destruct (IH _ eq_refl _ _ Hin) as (o & Ho & Hout). eauto.
Qed.

Lemma same_entries out ps :
  distinct_keys (map fst ps) = true ->
  Forall2 (fun o p => fst o = fst p /\ same_value (snd o) (snd p) = true)
          out ps ->
  same_value (VObj out) (VObj ps) = true.
Proof.
  intros D F. simpl. apply andb_true_iff.
  split; apply forallb_forall.
  - intros [k v'] Hin. simpl.
    destruct (Forall2_left F Hin) as ([k' v] & Hp & Ek & Sv).
    simpl in Ek, Sv. subst k'.
    now rewrite (distinct_keys_lookup _ _ _ D Hp).
  - intros [k v] Hin. simpl.
    destruct (Forall2_right F Hin) as ([k' v'] & Ho & Ek & _).
    simpl in Ek. subst k'. apply has_key_In. eauto.
Qed.

Lemma same_items_Forall2 out items :
  Forall2 (fun o p => same_value o p = true) out items ->
  same_items same_value out items = true.
Proof.
  induction 1 as [|o p out items Hop _ IH]; simpl; [reflexivity|].
  now rewrite Hop, IH.
Qed.

(** The schemas without parts: case analysis on the input and on the
    checks settles them. *)
Ltac scalar :=
  match goal with
  | |- forall v : value, _ =>
      intros [ | ? | ? | ? | ? | ? ]; simpl; try discriminate;
      repeat match goal with
             | |- context [if ?b then _ else _] => destruct b eqn:?
             end;
      try discriminate
  end.

Section SafeParse.

Variable URL_ok : string -> bool.

(** A defined input never parses to [undefined]... *)
Lemma safeParse_defined s : forall v r,
  safeParse URL_ok s (Some v) = Some r -> exists d, r = Some d.
Proof.
  induction s as [ cs | cs | | os | l | | vt IH | el IH | shape IH | i IH | i IH ]
    using schema_ind'.
  1-5: scalar; intros r [= <-]; eauto.
  - simpl. intros v r [= <-]. eauto.
  - intros [ | | | | | props ] r; simpl; try discriminate.
    destruct (parse_entries _ props); simpl; [|discriminate].
    intros [= <-]. eauto.
  - intros [ | | | | items | ] r; simpl; try discriminate.
    destruct (parse_items _ items); simpl; [|discriminate].
    intros [= <-]. eauto.
  - intros [ | | | | | props ] r; simpl; try discriminate.
    destruct (parse_shape _ props shape); simpl; [|discriminate].
    intros [= <-]. eauto.
  - simpl. exact IH.
  - intros v r. destruct v; simpl; try apply IH.
    intros [= <-]. eauto.
Qed.

(** ... and [undefined] never parses to a value. *)
Lemma safeParse_undefined s : forall r,
  safeParse URL_ok s None = Some r -> r = None.
Proof.
  induction s as [ cs | cs | | os | l | | vt IH | el IH | shape IH | i IH | i IH ]
    using schema_ind'; simpl; intros r; try discriminate.
  - now intros [= <-].
  - now intros [= <-].
  - apply IH.
Qed.

End SafeParse.

Section RoundTrip.

Variable URL_ok : string -> bool.

Lemma well_formed_prop props k w :
  well_formed (VObj props) = true -> In (k, w) props -> well_formed w = true.
Proof.
  simpl. intros W Hin. apply andb_true_iff in W as [_ W].
  rewrite forallb_forall in W. apply (W (k, w) Hin).
Qed.

(** The output of a successful parse is the input, except for the
    properties that no object schema on the way declares. *)
Lemma safeParse_same s : forall v d,
  well_formed v = true ->
  safeParse URL_ok s (Some v) = Some (Some d) ->
  declared_only s v = true ->
  same_value d v = true.
Proof.
  induction s as [ cs | cs | | os | l | | vt IH | el IH | shape IH | i IH | i IH ]
    using schema_ind'.
  1-5: scalar; intros d W [= <-] _; now apply same_value_refl.
  - simpl. intros v d W [= <-] _. now apply same_value_refl.
  - intros [ | | | | | props ] d W; simpl; try discriminate.
    destruct (parse_entries _ props) as [out|] eqn:E; simpl; [|discriminate].
    intros [= <-] Dc.
    apply parse_entries_Forall2 in E.
    2:{ intros v Hv. apply safeParse_defined in Hv as [? ?]. discriminate. }
    rewrite forallb_forall in Dc.
    pose proof W as W'. simpl in W'. apply andb_true_iff in W' as [D _].
    apply same_entries; [assumption|].
    eapply Forall2_weaken; [exact E|].
    intros [k v'] [k' v] Hin [Ek Hp]. simpl in *. split; [assumption|].
    apply IH; [eapply well_formed_prop; eauto | assumption |].
    apply (Dc (k', v) Hin).
  - intros [ | | | | items | ] d W; simpl; try discriminate.
    destruct (parse_items _ items) as [out|] eqn:E; simpl; [|discriminate].
    intros [= <-] Dc.
    apply parse_items_Forall2 in E.
    rewrite forallb_forall in Dc. simpl in W. rewrite forallb_forall in W.
    apply same_items_Forall2.
    eapply Forall2_weaken; [exact E|].
    intros v' v Hin Hp. simpl in *. apply IH; auto.
  - intros [ | | | | | props ] d W; simpl; try discriminate.
    destruct (parse_shape _ props shape) as [out|] eqn:E; simpl; [|discriminate].
    intros [= <-] Dc. apply andb_true_iff in Dc as [Dk Dv].
    rewrite forallb_forall in Dk, Dv. rewrite Forall_forall in IH.
    apply andb_true_iff. split; apply forallb_forall.
    + intros [k v'] Hin. simpl.
      destruct (parse_shape_out _ _ _ _ E _ _ Hin) as (sk & Hs & Hp).
      destruct (lookup k props) as [w|] eqn:L.
      * apply (IH (k, sk) Hs); simpl.
        -- eapply well_formed_prop; eauto using lookup_In.
        -- assumption.
        -- specialize (Dv (k, sk) Hs). simpl in Dv. now rewrite L in Dv.
      * apply safeParse_undefined in Hp. discriminate.
    + intros [k w] Hin. simpl.
      specialize (Dk (k, w) Hin). simpl in Dk.
      apply has_key_In in Dk as (sk & Hs).
      destruct (parse_shape_in _ _ _ _ E _ _ Hs) as (o & Ho & Hout).
      assert (L : exists w', lookup k props = Some w').
      { apply has_key_lookup, has_key_In. eauto. }
      destruct L as (w' & L). rewrite L in Ho.
      apply safeParse_defined in Ho as Hd. destruct Hd as (v' & ->).
      apply has_key_In. eauto.
  - simpl. exact IH.
  - intros v d W. destruct v; simpl; try apply IH; try assumption.
    intros [= <-] _. reflexivity.
Qed.

End RoundTrip.

Lemma existsb_keys {A} k (ps : list (string * A)) :
  existsb (String.eqb k) (map fst ps) = has_key k ps.
Proof.
  unfold has_key. induction ps as [|[k' v] ps IH]; simpl; [reflexivity|].
  now rewrite IH.
Qed.

Lemma lookup_None {A} k (ps : list (string * A)) :
  has_key k ps = false -> lookup k ps = None.
Proof.
  intros H. destruct (lookup k ps) as [v|] eqn:L; [|reflexivity].
  assert (X : has_key k ps = true) by (apply has_key_lookup; eauto).
  congruence.
Qed.

Lemma parse_entries_idem f ps : forall out,
  (forall v v', f v = Some (Some v') -> f v' = Some (Some v')) ->
  parse_entries f ps = Some out ->
  parse_entries f out = Some out.
Proof.
  intros out I. revert out.
  induction ps as [|[k v] ps IH]; simpl; intros out.
  - now intros [= <-].
  - destruct (f v) as [[v'|]|] eqn:E; try discriminate;
      destruct (parse_entries f ps) as [out'|]; try discriminate;
      intros [= <-]; [|auto].
    simpl. now rewrite (I _ _ E), (IH _ eq_refl).
Qed.

Lemma parse_items_idem f items : forall out,
  (forall v v', f v = Some (Some v') -> f v' = Some (Some v')) ->
  parse_items f items = Some out ->
  parse_items f out = Some out.
Proof.
  intros out I. revert out.
  induction items as [|v items IH]; simpl; intros out.
  - now intros [= <-].
  - destruct (f v) as [[v'|]|] eqn:E; try discriminate.
    destruct (parse_items f items) as [out'|]; try discriminate.
    intros [= <-]. simpl. now rewrite (I _ _ E), (IH _ eq_refl).
Qed.

Lemma parse_shape_keys parse props sh out k :
  parse_shape parse props sh = Some out ->
  has_key k sh = false -> has_key k out = false.
Proof.
  intros E H. apply not_true_is_false. intros X.
  apply has_key_In in X as (v' & Hin).
  destruct (parse_shape_out _ _ _ _ E _ _ Hin) as (sk & Hs & _).
  assert (Y : has_key k sh = true) by (apply has_key_In; eauto).
  congruence.
Qed.

(** Each key of the shape reads back from the output what its schema
    produced. *)
Lemma parse_shape_lookup parse props sh : forall out,
  distinct_keys (map fst sh) = true ->
  parse_shape parse props sh = Some out ->
  forall k sk, In (k, sk) sh ->
  parse sk (lookup k props) = Some (lookup k out).
Proof.
  induction sh as [|[k0 s0] sh IH]; simpl; intros out D E k sk Hin;
    [contradiction|].
  apply andb_true_iff in D as [N D].
  apply negb_true_iff in N. rewrite existsb_keys in N.
  destruct (parse s0 (lookup k0 props)) as [[v0|]|] eqn:P0; try discriminate;
    destruct (parse_shape parse props sh) as [out'|] eqn:E'; try discriminate;
    injection E as <-.
  - destruct Hin as [[= <- <-]|Hin]; simpl.
    + now rewrite String.eqb_refl.
    + destruct (String.eqb_spec k k0) as [->|_].
      * assert (X : has_key k0 sh = true) by (apply has_key_In; eauto).
        congruence.
      * eauto.
  - destruct Hin as [[= <- <-]|Hin].
    + rewrite (lookup_None _ _ (parse_shape_keys _ _ _ _ _ E' N)).
      assumption.
    + eauto.
Qed.

Lemma parse_shape_ext parse p1 p2 sh :
  (forall k sk, In (k, sk) sh ->
                parse sk (lookup k p1) = parse sk (lookup k p2)) ->
  parse_shape parse p1 sh = parse_shape parse p2 sh.
Proof.
  induction sh as [|[k0 s0] sh IH]; simpl; intros H; [reflexivity|].
  rewrite (H k0 s0) by now left.
  rewrite IH; [reflexivity|]. intros k sk Hin. apply H. now right.
Qed.

Section Idempotent.

Variable URL_ok : string -> bool.

(** Parsing the output of a successful parse returns it unchanged. *)
Lemma safeParse_idempotent s :
  distinct_shapes s = true ->
  forall x r, safeParse URL_ok s x = Some r -> safeParse URL_ok s r = Some r.
Proof.
  induction s as [ cs | cs | | os | l | | vt IH | el IH | shape IH | i IH | i IH ]
    using schema_ind'; intros DS.
  1-5: intros [v|] r; [revert v | discriminate];
       scalar; intros [= <-]; simpl;
       repeat match goal with H : _ = true |- _ => rewrite H end;
       reflexivity.
  - simpl. now intros x r [= <-].
  - simpl in DS. intros [[ | | | | | props ]|] r; simpl; try discriminate.
    destruct (parse_entries _ props) as [out|] eqn:E; simpl; [|discriminate].
    intros [= <-]. simpl.
    erewrite parse_entries_idem; [reflexivity | | exact E].
    intros v v'. apply IH. assumption.
  - simpl in DS. intros [[ | | | | items | ]|] r; simpl; try discriminate.
    destruct (parse_items _ items) as [out|] eqn:E; simpl; [|discriminate].
    intros [= <-]. simpl.
    erewrite parse_items_idem; [reflexivity | | exact E].
    intros v v'. apply IH. assumption.
  - simpl in DS. apply andb_true_iff in DS as [D DS].
    rewrite forallb_forall in DS. rewrite Forall_forall in IH.
    intros [[ | | | | | props ]|] r; simpl; try discriminate.
    destruct (parse_shape _ props shape) as [out|] eqn:E; simpl; [|discriminate].
    intros [= <-]. simpl.
    rewrite (parse_shape_ext _ out props shape), E; [reflexivity|].
    intros k sk Hin.
    pose proof (parse_shape_lookup _ _ _ _ D E _ _ Hin) as L.
    rewrite L. apply (IH (k, sk) Hin (DS (k, sk) Hin)) in L. exact L.
  - simpl in DS. intros [v|] r; simpl.
    + intros H. destruct (safeParse_defined _ _ _ _ H) as (d & ->).
      simpl. eauto.
    + now intros [= <-].
  - simpl in DS. intros x r H.
    assert (C : r = Some VNull \/ safeParse URL_ok i x = Some r).
    { destruct x as [[]|]; simpl in H; auto. injection H as <-. auto. }
    destruct C as [->|C]; [reflexivity|].
    apply IH in C; [|assumption].
    destruct r as [[]|]; simpl; auto.
Qed.

End Idempotent.

(* ================================================================== *)
(** * Part III: the claims of the specification                        *)
(* ================================================================== *)

(** ** Validators *)

(** C2, as stated, at an identifier with 25 characters after the prefix:
    it has the shape the claim describes (first character in [[0-7]], the
    others in the alphabet) and both [parseMessageId] and the [MessageId]
    schema reject it.  It is the "too short" identifier of the test
    suite. *)
Lemma message_id_of_25_rejected :
  message_id_shape 25 "message_000004QYYDCF9PHB9C6VWVHZE" = true
  /\ parseMessageId sample_URL_ok "message_000004QYYDCF9PHB9C6VWVHZE"
     = Throws (Error
         "Invalid message ID format. Expected: message_[0-7][0-9A-HJKMNP-TV-Z]{25}")
  /\ safeParse sample_URL_ok MessageId
       (Some (VStr "message_000004QYYDCF9PHB9C6VWVHZE")) = None.
Proof. repeat split. Qed.

(** C2, amended: the identifier validator ([parseMessageId] and the
    [MessageId] schema alike) accepts a string exactly when it is the
    prefix [message_] followed by 26 characters, the first in [[0-7]] and
    the other 25 in the 32-symbol alphabet (digits and uppercase letters
    without I, L, O, U).  Every other string is rejected, which covers
    each deviation: another prefix, a first character outside [[0-7]], a
    character outside the alphabet (a lowercase letter among them), and
    any other length. *)
Theorem message_id_accepted_iff_26 (URL_ok : string -> bool) (s : string) :
  (message_id_shape 26 s = true ->
     parseMessageId URL_ok s = Returns s
     /\ safeParse URL_ok MessageId (Some (VStr s)) = Some (Some (VStr s)))
  /\ (message_id_shape 26 s = false ->
        parseMessageId URL_ok s
        = Throws (Error
            "Invalid message ID format. Expected: message_[0-7][0-9A-HJKMNP-TV-Z]{25}")
        /\ safeParse URL_ok MessageId (Some (VStr s)) = None).
Proof.
  rewrite parseMessageId_test, MessageId_test, message_id_pattern_shape.
  split; intros ->; split; reflexivity.
Qed.

Lemma message_id_accepted_iff_26_witness :
  message_id_shape 26 "message_000004QYYDCF9PHB9C6VWVHZEZ" = true
  /\ parseMessageId sample_URL_ok "message_000004QYYDCF9PHB9C6VWVHZEZ"
     = Returns "message_000004QYYDCF9PHB9C6VWVHZEZ"
  /\ message_id_shape 26 "message_000004qyydcf9phb9c6vwvhzez" = false
  /\ safeParse sample_URL_ok MessageId
       (Some (VStr "message_000004qyydcf9phb9c6vwvhzez")) = None.
Proof.
  split; [reflexivity|]. split.
  - apply (proj1 (message_id_accepted_iff_26 sample_URL_ok
                    "message_000004QYYDCF9PHB9C6VWVHZEZ")).
    reflexivity.
  - split; [reflexivity|].
    apply (proj2 (message_id_accepted_iff_26 sample_URL_ok
                    "message_000004qyydcf9phb9c6vwvhzez")).
    reflexivity.
Defined.

(** The deviations the specification lists, one by one. *)
Lemma message_id_deviations (s : string) :
  message_id_shape 26 s = true ->
  String.length s = 34%nat
  /\ substring 0 8 s = "message_"
  /\ (forall c, String.get 8 s = Some c -> in_class c [range "0" "7"] = true)
  /\ (forall n c, (8 <= n)%nat -> String.get n s = Some c ->
                  crockford c = true /\ in_class c [range "a" "z"] = false).
Proof.
  unfold message_id_shape.
  destruct (strip_prefix "message_" s) as [[|c rest]|] eqn:E; try discriminate.
  apply strip_prefix_Some in E. subst s. intros H.
  apply andb_true_iff in H as [H Ha]. apply andb_true_iff in H as [Hl Hc].
  apply Nat.eqb_eq in Hl. simpl in Hl.
  assert (A : all_chars crockford (String c rest) = true).
  { simpl. rewrite Ha, andb_true_r.
    rewrite <- ulid_alphabet_crockford.
    revert Hc. destruct c as [[] [] [] [] [] [] [] []]; simpl; auto. }
  split; [|split; [|split]].
  - simpl. lia.
  - reflexivity.
  - intros x [= <-]. exact Hc.
  - intros n x Hn Hg.
    do 8 (destruct n as [|n]; [lia|]). simpl in Hg.
    pose proof (all_chars_get _ _ _ _ A Hg) as C.
    split; [exact C|].
    revert C. clear. destruct x as [[] [] [] [] [] [] [] []]; simpl; auto.
Qed.

(** C8: the timestamp validator ([validateTimestamp] and the
    [ISODateTime] schema) accepts every string of the form
    [YYYY-MM-DDTHH:MM:SS[.fff]Z], with or without fractional seconds, and
    rejects numeric-epoch strings, date-only strings and strings whose
    date and time are not separated by [T]. *)
Theorem timestamp_validator (URL_ok : string -> bool) (s : string) :
  (iso_utc_form s ->
     validateTimestamp URL_ok s = Returns s
     /\ safeParse URL_ok ISODateTime (Some (VStr s)) = Some (Some (VStr s)))
  /\ (numeric_epoch s \/ date_only s \/ not_T_separated s ->
        validateTimestamp URL_ok s = Throws (Error "Invalid datetime")
        /\ safeParse URL_ok ISODateTime (Some (VStr s)) = None).
Proof.
  rewrite validateTimestamp_test, ISODateTime_test. split; intros H.
  - apply datetimeRegex_form in H. rewrite H. split; reflexivity.
  - apply rejected_forms in H. rewrite H. split; reflexivity.
Qed.

Lemma timestamp_forms :
  iso_utc_form "2025-10-23T10:30:00.000Z"
  /\ iso_utc_form "2025-10-23T10:30:00Z"
  /\ numeric_epoch "1698056400000"
  /\ date_only "2025-10-23"
  /\ not_T_separated "2025-10-23 10:30:00".
Proof.
  repeat split; try discriminate.
  - exists "2025", "10", "23", "10", "30", "00", ".000".
    repeat split. right. exists "000". repeat split. discriminate.
  - exists "2025", "10", "23", "10", "30", "00", "".
    repeat split. now left.
  - exists "2025", "10", "23". repeat split.
Qed.

Lemma timestamp_validator_witness :
  validateTimestamp sample_URL_ok "2025-10-23T10:30:00.000Z"
  = Returns "2025-10-23T10:30:00.000Z"
  /\ validateTimestamp sample_URL_ok "2025-10-23T10:30:00Z"
     = Returns "2025-10-23T10:30:00Z"
  /\ validateTimestamp sample_URL_ok "1698056400000"
     = Throws (Error "Invalid datetime")
  /\ validateTimestamp sample_URL_ok "2025-10-23"
     = Throws (Error "Invalid datetime")
  /\ validateTimestamp sample_URL_ok "2025-10-23 10:30:00"
     = Throws (Error "Invalid datetime").
Proof.
  destruct timestamp_forms as (F1 & F2 & F3 & F4 & F5).
  split; [|split; [|split; [|split]]].
  - exact (proj1 (proj1 (timestamp_validator sample_URL_ok _) F1)).
  - exact (proj1 (proj1 (timestamp_validator sample_URL_ok _) F2)).
  - exact (proj1 (proj2 (timestamp_validator sample_URL_ok _) (or_introl F3))).
  - exact (proj1 (proj2 (timestamp_validator sample_URL_ok _)
                    (or_intror (or_introl F4)))).
  - exact (proj1 (proj2 (timestamp_validator sample_URL_ok _)
                    (or_intror (or_intror F5)))).
Defined.

(** ** Dispatch *)

(** Settles the status cascade once the status is known from the
    hypotheses. *)
Ltac cascade :=
  unfold handle_response, ok;
  repeat match goal with
         | |- context [Z.eqb ?a ?b] => destruct (Z.eqb_spec a b); try lia
         | |- context [Z.leb ?a ?b] => destruct (Z.leb_spec a b); try lia
         end;
  simpl; try reflexivity.

Lemma request_resolved this fetch method path options calls response :
  fetch (build_call this method path options) = Resolves response ->
  request this fetch method path options calls
  = (handle_response response,
     (calls ++ [build_call this method path options])%list).
Proof.
  intros H. unfold request. rewrite H. simpl.
  f_equal. unfold handle_response.
  repeat match goal with
         | |- context [if ?b then _ else _] => destruct b; try reflexivity
         end.
  destruct (json response); reflexivity.
Qed.

(** Every error the status cascade throws carries the status of the
    response it classifies. *)
Lemma classified_error_status response e :
  handle_response response = Throws (Inline e) ->
  error_status e = Some (status response).
Proof.
  unfold handle_response.
  repeat match goal with
         | |- context [Z.eqb ?a ?b] => destruct (Z.eqb_spec a b)
         | |- context [if ?b then _ else _] => destruct b
         end;
    try destruct (json response); intros [= <-]; simpl; congruence.
Qed.

(** C1: a response is classified by its status in the order 401, 403,
    404, 429, 500 and above, any other status that is not 2xx; the errors
    thrown are [AuthenticationError], [AuthorizationError],
    [NotFoundError], [RateLimitError], [ServerError] with the status of
    the response, and [ApiError]; a 2xx status throws none of them and
    hands the parsed body back. *)
Theorem status_dispatch this fetch method path options calls response :
  fetch (build_call this method path options) = Resolves response ->
  (status response = 401 ->
     fst (request this fetch method path options calls)
     = Throws (Inline (AuthenticationError "Invalid or expired token")))
  /\ (status response = 403 ->
        fst (request this fetch method path options calls)
        = Throws (Inline
            (AuthorizationError "Not authorized to access this resource")))
  /\ (status response = 404 ->
        fst (request this fetch method path options calls)
        = Throws (Inline (NotFoundError "Resource not found")))
  /\ (status response = 429 ->
        exists retryAfter,
          fst (request this fetch method path options calls)
          = Throws (Inline (RateLimitError "Rate limited" retryAfter)))
  /\ (500 <= status response ->
        fst (request this fetch method path options calls)
        = Throws (Inline
            (ServerError
               ("Server error: "
                ++ (if (text response =? "")%string
                    then statusText response else text response))
               (status response))))
  /\ (status response <> 401 -> status response <> 403 ->
      status response <> 404 -> status response <> 429 ->
      status response < 500 -> ~ (200 <= status response <= 299) ->
        fst (request this fetch method path options calls)
        = Throws (Inline
            (ApiError
               ("API error: "
                ++ (if (text response =? "")%string
                    then statusText response else text response))
               (status response) (text response))))
  /\ (200 <= status response <= 299 ->
        fst (request this fetch method path options calls)
        = match json response with
          | Some data => Returns data
          | None => Throws (Native (OtherError "SyntaxError" "JSON Parse error"))
          end).
Proof.
  intros H. rewrite (request_resolved _ _ _ _ _ calls _ H). simpl.
  repeat split; intros; cascade; eauto.
Qed.

Lemma status_dispatch_witness :
  fst (request sample_client
         (fun _ => Resolves (sample_response 503 [] None))
         "GET" "/health" None [])
  = Throws (Inline (ServerError "Server error: " 503))
  /\ fst (request sample_client
            (fun _ => Resolves (sample_response 409 [] None))
            "DELETE" "/messages/m" None [])
     = Throws (Inline (ApiError "API error: " 409 ""))
  /\ fst (request sample_client
            (fun _ => Resolves (sample_response 204 [] (Some VNull)))
            "GET" "/health" None [])
     = Returns VNull.
Proof.
  split; [|split].
  - destruct (status_dispatch sample_client
                (fun _ => Resolves (sample_response 503 [] None))
                "GET" "/health" None [] _ eq_refl)
      as (_ & _ & _ & _ & H & _).
    apply H. simpl. lia.
  - destruct (status_dispatch sample_client
                (fun _ => Resolves (sample_response 409 [] None))
                "DELETE" "/messages/m" None [] _ eq_refl)
      as (_ & _ & _ & _ & _ & H & _).
    apply H; simpl; lia.
  - destruct (status_dispatch sample_client
                (fun _ => Resolves (sample_response 204 [] (Some VNull)))
                "GET" "/health" None [] _ eq_refl)
      as (_ & _ & _ & _ & _ & _ & H).
    apply H. simpl. lia.
Defined.

Lemma parseInt10_empty : parseInt10 "" = NaN.
Proof. reflexivity. Qed.

(** C7, as stated, at a 429 whose [Retry-After] header is present with an
    empty value: the header read as an integer is [NaN], while the error
    carries [undefined], as it does for an absent header. *)
Lemma empty_retry_after_is_undefined :
  headers_get "Retry-After" [("Retry-After", "")] = Some ""
  /\ fst (request sample_client
            (fun _ => Resolves (sample_response 429 [("Retry-After", "")] None))
            "GET" "/health" None [])
     = Throws (Inline (RateLimitError "Rate limited" None))
  /\ RateLimitError "Rate limited" None
     <> RateLimitError "Rate limited" (Some (parseInt10 "")).
Proof. repeat split. discriminate. Qed.

(** C7, amended: on a 429 the [RateLimitError] carries the [Retry-After]
    header read as an integer ([parseInt], radix 10) when the header is
    present with a value that is not empty, and [undefined] when the
    header is absent or empty. *)
Theorem rate_limit_retry_after this fetch method path options calls response :
  fetch (build_call this method path options) = Resolves response ->
  status response = 429 ->
  (forall v,
      headers_get "Retry-After" (headers response) = Some v ->
      v <> "" ->
      fst (request this fetch method path options calls)
      = Throws (Inline (RateLimitError "Rate limited" (Some (parseInt10 v)))))
  /\ (forall v n,
        headers_get "Retry-After" (headers response) = Some v ->
        parseInt10 v = Num n ->
        fst (request this fetch method path options calls)
        = Throws (Inline (RateLimitError "Rate limited" (Some (Num n)))))
  /\ (headers_get "Retry-After" (headers response) = None
      \/ headers_get "Retry-After" (headers response) = Some "" ->
        fst (request this fetch method path options calls)
        = Throws (Inline (RateLimitError "Rate limited" None))).
Proof.
  intros H St. rewrite (request_resolved _ _ _ _ _ calls _ H). simpl.
  assert (E : handle_response response
              = let retryAfter := headers_get "Retry-After" (headers response) in
                Throws (Inline (RateLimitError "Rate limited"
                  (if truthy retryAfter
                   then option_map parseInt10 retryAfter else None)))).
  { unfold handle_response. rewrite St. reflexivity. }
  rewrite E. clear E. simpl.
  assert (T : forall v, v <> "" -> truthy (Some v) = true).
  { intros [|c v] Hv; [congruence | reflexivity]. }
  split; [|split].
  - intros v -> Hv. now rewrite T.
  - intros v n -> Hn.
    rewrite T by (intros ->; rewrite parseInt10_empty in Hn; discriminate).
    simpl. now rewrite Hn.
  - intros [->| ->]; reflexivity.
Qed.

Lemma rate_limit_retry_after_witness :
  fst (request sample_client
         (fun _ => Resolves (sample_response 429 [("Retry-After", "60")] None))
         "GET" "/health" None [])
  = Throws (Inline (RateLimitError "Rate limited" (Some (Num 60))))
  /\ fst (request sample_client
            (fun _ => Resolves (sample_response 429 [] None))
            "GET" "/health" None [])
     = Throws (Inline (RateLimitError "Rate limited" None)).
Proof.
  split.
  - apply (proj1 (proj2 (rate_limit_retry_after sample_client
                    (fun _ => Resolves
                       (sample_response 429 [("Retry-After", "60")] None))
                    "GET" "/health" None [] _ eq_refl eq_refl))
             "60" 60); reflexivity.
  - apply (proj2 (proj2 (rate_limit_retry_after sample_client
                    (fun _ => Resolves (sample_response 429 [] None))
                    "GET" "/health" None [] _ eq_refl eq_refl))).
    left. reflexivity.
Defined.

(** C3: [getMessage], [retryMessage], [getErrorsByCode] and
    [cancelMessage], called with the empty string, throw
    [ValidationError] and leave the log of transport calls as it was; from
    an empty log the call count stays zero. *)
Theorem empty_argument_no_call this fetch calls :
  getMessage this fetch "" calls
  = (Throws (Inline (ValidationError "messageId is required")), calls)
  /\ retryMessage this fetch "" calls
     = (Throws (Inline (ValidationError "messageId is required")), calls)
  /\ getErrorsByCode this fetch "" calls
     = (Throws (Inline (ValidationError "code is required")), calls)
  /\ cancelMessage this fetch "" calls
     = (Throws (Inline (ValidationError "messageId is required")), calls)
  /\ getCallCount (snd (getMessage this fetch "" [])) = 0%nat
  /\ getCallCount (snd (retryMessage this fetch "" [])) = 0%nat
  /\ getCallCount (snd (getErrorsByCode this fetch "" [])) = 0%nat
  /\ getCallCount (snd (cancelMessage this fetch "" [])) = 0%nat.
Proof. repeat split. Qed.

Lemma request_calls this fetch method path options calls :
  snd (request this fetch method path options calls)
  = (calls ++ [build_call this method path options])%list.
Proof. reflexivity. Qed.

Lemma dot_errors_calls response calls :
  snd (dot_errors response calls) = calls.
Proof. destruct response; reflexivity. Qed.

Lemma errors_of_calls this fetch method path calls :
  snd ((response <- request this fetch method path None ;;
        dot_errors response) calls)
  = (calls ++ [build_call this method path None])%list.
Proof.
  unfold bind.
  pose proof (request_calls this fetch method path None calls) as L.
  destruct (request this fetch method path None calls) as [[data|e] calls'];
    simpl in *; [rewrite dot_errors_calls|]; exact L.
Qed.

(** With an identifier the same operations do reach the transport. *)
Lemma nonempty_argument_one_call this fetch :
  getCallCount (snd (getMessage this fetch "m" [])) = 1%nat
  /\ getCallCount (snd (retryMessage this fetch "m" [])) = 1%nat
  /\ getCallCount (snd (getErrorsByCode this fetch "TIMEOUT" [])) = 1%nat
  /\ getCallCount (snd (cancelMessage this fetch "m" [])) = 1%nat.
Proof.
  split; [reflexivity | split; [reflexivity | split; [|reflexivity]]].
  unfold getErrorsByCode. change ("TIMEOUT" =? "")%string with false.
  cbv iota. now rewrite errors_of_calls.
Qed.

(** C4, as stated, fails twice.  When the timer fires first the caller
    receives the [AbortError] itself, which is no [InlineError]; and an
    exception of the transport that is neither an [InlineError] nor a
    [TypeError] is rethrown as it is, not wrapped. *)
Lemma abort_is_not_wrapped :
  fst (request sample_client (fun _ => Pending) "GET" "/health" None [])
  = Throws AbortError
  /\ (forall e : InlineError, AbortError <> Inline e)
  /\ fst (request sample_client
            (fun _ => Rejects (Error "socket hang up"))
            "GET" "/health" None [])
     = Throws (Error "socket hang up")
  /\ (forall e : InlineError, Error "socket hang up" <> Inline e).
Proof. repeat split; discriminate. Qed.

(** C4, amended: a call whose timer fires before the transport resolves
    is aborted and fails by throwing; a [TypeError] thrown by the
    transport is wrapped as [NetworkError] carrying it; an [InlineError]
    propagates unchanged, and so does every other thrown value.  Each
    invocation makes exactly one transport call. *)
Theorem transport_failure this fetch method path options calls :
  (fetch (build_call this method path options) = Pending ->
     exists e, fst (request this fetch method path options calls) = Throws e)
  /\ (forall m,
        fetch (build_call this method path options)
        = Rejects (Native (TypeError m)) ->
        fst (request this fetch method path options calls)
        = Throws (Inline (NetworkError "Network error" (Some (TypeError m)))))
  /\ (forall e,
        fetch (build_call this method path options) = Rejects (Inline e) ->
        fst (request this fetch method path options calls)
        = Throws (Inline e))
  /\ (forall e,
        fetch (build_call this method path options) = Rejects e ->
        (forall m, e <> Native (TypeError m)) ->
        fst (request this fetch method path options calls) = Throws e)
  /\ snd (request this fetch method path options calls)
     = (calls ++ [build_call this method path options])%list.
Proof.
  unfold request.
  split; [|split; [|split; [|split]]]; simpl.
  - intros ->. simpl. eauto.
  - intros m ->. reflexivity.
  - intros e ->. reflexivity.
  - intros e -> N. simpl.
    destruct e as [e|[m|n m]|v]; try reflexivity.
    now destruct (N m).
  - reflexivity.
Qed.

Lemma transport_failure_witness :
  fst (request sample_client
         (fun _ => Rejects (Native (TypeError "Failed to fetch")))
         "GET" "/health" None [])
  = Throws (Inline
      (NetworkError "Network error" (Some (TypeError "Failed to fetch"))))
  /\ fst (request sample_client
            (fun _ => Rejects (Inline (ValidationError "x")))
            "GET" "/health" None [])
     = Throws (Inline (ValidationError "x")).
Proof.
  split.
  - apply (proj1 (proj2 (transport_failure sample_client
             (fun _ => Rejects (Native (TypeError "Failed to fetch")))
             "GET" "/health" None []))).
    reflexivity.
  - apply (proj1 (proj2 (proj2 (transport_failure sample_client
             (fun _ => Rejects (Inline (ValidationError "x")))
             "GET" "/health" None [])))).
    reflexivity.
Defined.

(** ** Publish *)

Lemma lookup_assign {A} k k' (v : A) ps :
  lookup k (assign k' v ps) = if (k =? k')%string then Some v else lookup k ps.
Proof.
  induction ps as [|[k0 v0] ps IH]; simpl.
  - reflexivity.
  - destruct (String.eqb_spec k' k0) as [->|N]; simpl.
    + destruct (String.eqb_spec k k0); reflexivity.
    + rewrite IH.
      destruct (String.eqb_spec k k0) as [->|N0]; [|reflexivity].
      destruct (String.eqb_spec k0 k'); congruence.
Qed.

Lemma keys_assign {A} k (v : A) ps :
  exists added, map fst (assign k v ps) = (map fst ps ++ added)%list.
Proof.
  induction ps as [|[k0 v0] ps [added IH]]; simpl.
  - now exists [k].
  - destruct (String.eqb_spec k k0) as [->|N]; simpl.
    + exists []. now rewrite app_nil_r.
    + exists added. now rewrite IH.
Qed.

Lemma lookup_when_set {A} k key (o : option string) (g : string -> A) ps :
  lookup k (when_set o (fun v => assign key (g v)) ps)
  = if (k =? key)%string && truthy o then option_map g o else lookup k ps.
Proof.
  unfold when_set. destruct o as [s|]; simpl.
  - destruct (negb (s =? "")%string); simpl.
    + rewrite lookup_assign. now rewrite andb_true_r.
    + now rewrite andb_false_r.
  - now rewrite andb_false_r.
Qed.

Lemma keys_when_set {A} key (o : option string) (g : string -> A) ps :
  exists added,
    map fst (when_set o (fun v => assign key (g v)) ps)
    = (map fst ps ++ added)%list.
Proof.
  unfold when_set. destruct o as [s|].
  - destruct (truthy (Some s)).
    + apply keys_assign.
    + exists []. now rewrite app_nil_r.
  - exists []. now rewrite app_nil_r.
Qed.

Lemma lookup_app {A} k (a b : list (string * A)) :
  lookup k (a ++ b)
  = match lookup k a with Some v => Some v | None => lookup k b end.
Proof.
  induction a as [|[k0 v0] a IH]; simpl; [reflexivity|].
  destruct (k =? k0)%string; auto.
Qed.

(** The reserved fields of the forwarded headers, over a body [ps]. *)
Lemma lookup_forwarded {A} (g : string -> A) k hs : forall ps,
  lookup k (fold_left
              (fun o kv => assign ("Queue-Forward-" ++ fst kv) (g (snd kv)) o)
              hs ps)
  = match forwarded k hs with
    | Some v => Some (g v)
    | None => lookup k ps
    end.
Proof.
  unfold forwarded.
  induction hs as [|[h v] hs IH]; intros ps; simpl fold_left.
  - reflexivity.
  - rewrite IH. simpl rev. rewrite map_app, lookup_app. simpl.
    destruct (lookup k (map _ (rev hs))); [reflexivity|].
    rewrite lookup_assign.
    repeat match goal with
           | |- context [String.eqb k ?x] => destruct (String.eqb k x)
           end; reflexivity.
Qed.

Lemma keys_forwarded {A} (g : string -> A) hs : forall ps,
  exists added,
    map fst (fold_left
               (fun o kv => assign ("Queue-Forward-" ++ fst kv) (g (snd kv)) o)
               hs ps)
    = (map fst ps ++ added)%list.
Proof.
  induction hs as [|[h v] hs IH]; intros ps; cbn [fold_left fst snd].
  - exists []. now rewrite app_nil_r.
  - destruct (IH (assign ("Queue-Forward-" ++ h) (g v) ps)) as [a1 E1].
    destruct (keys_assign ("Queue-Forward-" ++ h) (g v) ps) as [a2 E2].
    exists (a2 ++ a1)%list. now rewrite E1, E2, app_assoc.
Qed.

Lemma toUpperCase_GET m : toUpperCase m = "GET" -> truthy (Some m) = true.
Proof. destruct m; [discriminate | reflexivity]. Qed.

Lemma not_empty s : s <> "" -> (s =? "")%string = false.
Proof. destruct s; [congruence | reflexivity]. Qed.

(** C5: [publish] with the method GET (in any letter case), the delay
    [5m] and the header [X-A: 1] sends a GET to
    [/publish/<url-encoded callbackUrl>] whose query parameters include
    [Queue-Delay=5m] and [Queue-Forward-X-A=1], without a body; and a
    publish call carries the query parameter [Queue-Method] only when the
    options name a method. *)
Theorem publish_with_GET this fetch calls callbackUrl payload options m :
  callbackUrl <> "" ->
  PublishOptions.method options = Some m ->
  toUpperCase m = "GET" ->
  PublishOptions.delay options = Some "5m" ->
  PublishOptions.headers options = Some [("X-A", "1")] ->
  (exists params,
     snd (publish this fetch callbackUrl payload (Some options) calls)
     = (calls ++
        [ {| call_url :=
               {| url_base := this_apiUrl this;
                  url_path := ("/publish/" ++ encodeURIComponent callbackUrl)%string;
                  searchParams := params |};
             call_method := "GET";
             call_headers :=
               [ ("Content-Type", "application/json");
                 ("Authorization", ("Bearer " ++ this_token this)%string) ];
             call_body := None |} ])%list
     /\ In ("Queue-Delay", "5m") params
     /\ In ("Queue-Forward-X-A", "1") params
     /\ In ("Queue-Method", "GET") params)
  /\ (forall options' call,
        snd (publish this fetch callbackUrl payload options' []) = [call] ->
        has_key "Queue-Method" (searchParams (call_url call)) = true ->
        truthy (chain PublishOptions.method options') = true).
Proof.
  intros Hu Hm HG Hd Hh. split.
  - destruct options as [hs d nb tz me]. simpl in Hm, Hd, Hh. subst.
    unfold publish, httpMethod. rewrite (not_empty _ Hu).
    cbn [chain PublishOptions.method PublishOptions.delay
         PublishOptions.headers PublishOptions.notBefore
         PublishOptions.timezone].
    rewrite (toUpperCase_GET _ HG), HG.
    unfold when_set. rewrite (toUpperCase_GET _ HG).
    destruct nb as [[|? ?]|], tz as [[|? ?]|]; simpl;
      eexists; (split; [reflexivity|]); simpl; auto 10.
  - intros options' call.
    destruct (truthy (chain PublishOptions.method options')) eqn:T;
      [reflexivity|].
    unfold publish, httpMethod. rewrite (not_empty _ Hu).
    destruct (chain PublishOptions.method options') as [m'|];
      try rewrite T; simpl; intros [= <-]; discriminate.
Qed.

Lemma publish_with_GET_witness :
  exists params,
    map (fun c => (call_method c, url_path (call_url c), call_body c))
        (snd (publish sample_client (fun _ => Pending)
                "https://example.com/hook" [("a", VNum 1)]
                (Some (sample_options (Some "get") (Some "5m"))) []))
    = [ ("GET", "/publish/https%3A%2F%2Fexample.com%2Fhook", None) ]
    /\ map (fun c => searchParams (call_url c))
           (snd (publish sample_client (fun _ => Pending)
                   "https://example.com/hook" [("a", VNum 1)]
                   (Some (sample_options (Some "get") (Some "5m"))) []))
       = [ params ]
    /\ In ("Queue-Delay", "5m") params
    /\ In ("Queue-Forward-X-A", "1") params.
Proof.
  destruct (publish_with_GET sample_client (fun _ => Pending) []
              "https://example.com/hook" [("a", VNum 1)]
              (sample_options (Some "get") (Some "5m")) "get")
    as [(params & E & D & F & _) _];
    try reflexivity; try discriminate.
  exists params. rewrite E. simpl. auto.
Defined.

(** The body [publish] builds for a method other than GET. *)
Lemma publish_body_fields options payload k :
  lookup k
    (when_set (chain PublishOptions.method options)
       (fun _ => assign "Queue-Method" (VStr (httpMethod options)))
       (when_set (chain PublishOptions.timezone options)
          (fun v => assign "Queue-timezone" (VStr v))
          (when_set (chain PublishOptions.notBefore options)
             (fun v => assign "Queue-notBefore" (VStr v))
             (when_set (chain PublishOptions.delay options)
                (fun v => assign "Queue-Delay" (VStr v))
                match chain PublishOptions.headers options with
                | Some hs =>
                    fold_left
                      (fun o kv =>
                         assign ("Queue-Forward-" ++ fst kv) (VStr (snd kv)) o)
                      hs payload
                | None => payload
                end))))
  = match reserved_field options k with
    | Some v => Some (VStr v)
    | None => lookup k payload
    end.
Proof.
  unfold reserved_field.
  rewrite (lookup_when_set k "Queue-Method" _
             (fun _ => VStr (httpMethod options))).
  destruct ((k =? "Queue-Method")%string
            && truthy (chain PublishOptions.method options)) eqn:E1.
  { apply andb_true_iff in E1 as [_ T].
    destruct (chain PublishOptions.method options); [reflexivity|discriminate]. }
  rewrite (lookup_when_set k "Queue-timezone" _ VStr).
  destruct ((k =? "Queue-timezone")%string
            && truthy (chain PublishOptions.timezone options)) eqn:E2.
  { apply andb_true_iff in E2 as [_ T].
    destruct (chain PublishOptions.timezone options); [reflexivity|discriminate]. }
  rewrite (lookup_when_set k "Queue-notBefore" _ VStr).
  destruct ((k =? "Queue-notBefore")%string
            && truthy (chain PublishOptions.notBefore options)) eqn:E3.
  { apply andb_true_iff in E3 as [_ T].
    destruct (chain PublishOptions.notBefore options); [reflexivity|discriminate]. }
  rewrite (lookup_when_set k "Queue-Delay" _ VStr).
  destruct ((k =? "Queue-Delay")%string
            && truthy (chain PublishOptions.delay options)) eqn:E4.
  { apply andb_true_iff in E4 as [_ T].
    destruct (chain PublishOptions.delay options); [reflexivity|discriminate]. }
  destruct (chain PublishOptions.headers options) as [hs|]; [|reflexivity].
  apply (lookup_forwarded VStr).
Qed.

Lemma publish_body_keys options (payload : list (string * value)) :
  exists added,
    map fst
      (when_set (chain PublishOptions.method options)
         (fun _ => assign "Queue-Method" (VStr (httpMethod options)))
         (when_set (chain PublishOptions.timezone options)
            (fun v => assign "Queue-timezone" (VStr v))
            (when_set (chain PublishOptions.notBefore options)
               (fun v => assign "Queue-notBefore" (VStr v))
               (when_set (chain PublishOptions.delay options)
                  (fun v => assign "Queue-Delay" (VStr v))
                  match chain PublishOptions.headers options with
                  | Some hs =>
                      fold_left
                        (fun o kv =>
                           assign ("Queue-Forward-" ++ fst kv) (VStr (snd kv)) o)
                        hs payload
                  | None => payload
                  end))))
    = (map fst payload ++ added)%list.
Proof.
  match goal with
  | |- exists a, map fst (when_set ?o1 ?f1 (when_set ?o2 ?f2
                   (when_set ?o3 ?f3 (when_set ?o4 ?f4 ?b)))) = _ =>
      destruct (keys_when_set "Queue-Method" o1
                  (fun _ => VStr (httpMethod options))
                  (when_set o2 f2 (when_set o3 f3 (when_set o4 f4 b))))
        as [a1 E1];
      destruct (keys_when_set "Queue-timezone" o2 VStr
                  (when_set o3 f3 (when_set o4 f4 b))) as [a2 E2];
      destruct (keys_when_set "Queue-notBefore" o3 VStr (when_set o4 f4 b))
        as [a3 E3];
      destruct (keys_when_set "Queue-Delay" o4 VStr b) as [a4 E4];
      assert (E5 : exists a5, map fst b = (map fst payload ++ a5)%list)
  end.
  { destruct (chain PublishOptions.headers options) as [hs|].
    - apply (keys_forwarded VStr).
    - exists []. now rewrite app_nil_r. }
  destruct E5 as [a5 E5].
  exists (a5 ++ a4 ++ a3 ++ a2 ++ a1)%list.
  rewrite E1, E2, E3, E4, E5. now rewrite <- !app_assoc.
Qed.

(** C6: for a method other than GET the JSON body is the payload, spread
    first, with the reserved fields assigned over it, so that a reserved
    field the options ask for wins over a payload key of the same name;
    with the default method, the payload [{a:1}] and the header
    [X-A: 1] the request is a POST whose body is
    [{"a":1,"Queue-Forward-X-A":"1"}]. *)
Theorem publish_body this fetch calls callbackUrl payload options :
  callbackUrl <> "" ->
  httpMethod options <> "GET" ->
  (exists body,
     snd (publish this fetch callbackUrl payload options calls)
     = (calls ++
        [ {| call_url :=
               {| url_base := this_apiUrl this;
                  url_path :=
                    ("/publish/" ++ encodeURIComponent callbackUrl)%string;
                  searchParams := [] |};
             call_method := httpMethod options;
             call_headers :=
               [ ("Content-Type", "application/json");
                 ("Authorization", ("Bearer " ++ this_token this)%string) ];
             call_body := Some (VObj body) |} ])%list
     /\ (exists added, map fst body = (map fst payload ++ added)%list)
     /\ (forall k,
           lookup k body
           = match reserved_field options k with
             | Some v => Some (VStr v)
             | None => lookup k payload
             end))
  /\ snd (publish this fetch callbackUrl [("a", VNum 1)]
            (Some (sample_options None None)) calls)
     = (calls ++
        [ {| call_url :=
               {| url_base := this_apiUrl this;
                  url_path :=
                    ("/publish/" ++ encodeURIComponent callbackUrl)%string;
                  searchParams := [] |};
             call_method := "POST";
             call_headers :=
               [ ("Content-Type", "application/json");
                 ("Authorization", ("Bearer " ++ this_token this)%string) ];
             call_body :=
               Some (VObj [("a", VNum 1); ("Queue-Forward-X-A", VStr "1")])
          |} ])%list.
Proof.
  intros Hu Hm. split.
  - unfold publish. rewrite (not_empty _ Hu).
    destruct (String.eqb_spec (httpMethod options) "GET") as [E|_];
      [contradiction|].
    eexists. split; [reflexivity|]. split.
    + apply publish_body_keys.
    + intros k. apply publish_body_fields.
  - unfold publish. rewrite (not_empty _ Hu). reflexivity.
Qed.

Lemma publish_body_witness :
  map (fun c => (call_method c, call_body c))
      (snd (publish sample_client (fun _ => Pending)
              "https://example.com/hook"
              [("a", VNum 1); ("Queue-Delay", VStr "1h")]
              (Some (sample_options (Some "put") (Some "5m"))) []))
  = [ ("PUT",
       Some (VObj [ ("a", VNum 1); ("Queue-Delay", VStr "5m");
                    ("Queue-Forward-X-A", VStr "1");
                    ("Queue-Method", VStr "PUT") ])) ]
  /\ map (fun c => (call_method c, call_body c))
         (snd (publish sample_client (fun _ => Pending)
                 "https://example.com/hook" [("a", VNum 1)]
                 (Some (sample_options None None)) []))
     = [ ("POST",
          Some (VObj [("a", VNum 1); ("Queue-Forward-X-A", VStr "1")])) ].
Proof.
  split.
  - destruct (publish_body sample_client (fun _ => Pending) []
                "https://example.com/hook"
                [("a", VNum 1); ("Queue-Delay", VStr "1h")]
                (Some (sample_options (Some "put") (Some "5m"))))
      as [(body & E & _ & _) _]; try discriminate.
    reflexivity.
  - destruct (publish_body sample_client (fun _ => Pending) []
                "https://example.com/hook" [("a", VNum 1)]
                (Some (sample_options None None)))
      as [_ E]; try discriminate.
    rewrite E. reflexivity.
Defined.

(** ** Successful responses *)

Lemma request_ok this fetch response b :
  (forall call, fetch call = Resolves response) ->
  200 <= status response <= 299 ->
  json response = Some b ->
  forall method path options calls,
    request this fetch method path options calls
    = (Returns b, (calls ++ [build_call this method path options])%list).
Proof.
  intros F S J method path options calls.
  rewrite (request_resolved _ _ _ _ _ calls _ (F _)). f_equal.
  cascade. now rewrite J.
Qed.

(** C10: on a 2xx response with JSON body [b], [getErrorsByCode] and
    [getMessageErrors] return [b.errors] alone (for an object body its
    [errors] property, whatever [summary] holds), and every other
    operation returns [b] as it is. *)
Theorem successful_bodies this fetch calls response b :
  (forall call, fetch call = Resolves response) ->
  200 <= status response <= 299 ->
  json response = Some b ->
  (forall code, code <> "" ->
     fst (getErrorsByCode this fetch code calls) = fst (dot_errors b calls))
  /\ (forall id, id <> "" ->
        fst (getMessageErrors this fetch id calls) = fst (dot_errors b calls))
  /\ (forall props, b = VObj props ->
        fst (dot_errors b calls) = Returns (lookup "errors" props)
        /\ forall summary,
             lookup "errors" (assign "summary" summary props)
             = lookup "errors" props)
  /\ (forall callbackUrl payload options, callbackUrl <> "" ->
        fst (publish this fetch callbackUrl payload options calls) = Returns b)
  /\ (forall id, id <> "" ->
        fst (getMessage this fetch id calls) = Returns b
        /\ fst (getMessageTimeline this fetch id calls) = Returns b
        /\ fst (retryMessage this fetch id calls) = Returns b
        /\ fst (cancelMessage this fetch id calls) = Returns b)
  /\ (forall options,
        fst (listMessages this fetch options calls) = Returns b
        /\ fst (getMessages this fetch options calls) = Returns b)
  /\ fst (getHealth this fetch calls) = Returns b
  /\ fst (getHealthReady this fetch calls) = Returns b
  /\ fst (getDebugMessages this fetch calls) = Returns b
  /\ fst (getDebugStats this fetch calls) = Returns b
  /\ fst (getErrorStats this fetch calls) = Returns b
  /\ fst (getDeadLetterErrors this fetch calls) = Returns b.
Proof.
  intros F S J.
  pose proof (request_ok this _ _ _ F S J) as R.
  assert (D : forall calls', fst (dot_errors b calls') = fst (dot_errors b calls)).
  { intros calls'. destruct b; reflexivity. }
  repeat match goal with |- _ /\ _ => split end.
  - intros code Hc. unfold getErrorsByCode, bind.
    rewrite (not_empty _ Hc), R. apply D.
  - intros id Hi. unfold getMessageErrors, bind.
    rewrite (not_empty _ Hi), R. apply D.
  - intros props ->. split; [reflexivity|].
    intros summary. now rewrite lookup_assign.
  - intros callbackUrl payload options Hu. unfold publish.
    rewrite (not_empty _ Hu).
    destruct (httpMethod options =? "GET")%string; now rewrite R.
  - intros id Hi.
    unfold getMessage, getMessageTimeline, retryMessage, cancelMessage.
    rewrite (not_empty _ Hi), !R. auto.
  - intros options. unfold getMessages, listMessages. rewrite R. auto.
  - unfold getHealth. now rewrite R.
  - unfold getHealthReady. now rewrite R.
  - unfold getDebugMessages. now rewrite R.
  - unfold getDebugStats. now rewrite R.
  - unfold getErrorStats. now rewrite R.
  - unfold getDeadLetterErrors. now rewrite R.
Qed.

Lemma successful_bodies_witness :
  fst (getErrorsByCode sample_client
         (fun _ => Resolves
            (sample_response 200 []
               (Some (VObj [ ("summary", VObj [("count", VNum 1)]);
                             ("errors", VArr [VStr "e"]) ]))))
         "TIMEOUT" [])
  = Returns (Some (VArr [VStr "e"]))
  /\ fst (getErrorStats sample_client
            (fun _ => Resolves
               (sample_response 200 []
                  (Some (VObj [ ("summary", VObj [("count", VNum 1)]);
                                ("errors", VArr [VStr "e"]) ]))))
            [])
     = Returns (VObj [ ("summary", VObj [("count", VNum 1)]);
                       ("errors", VArr [VStr "e"]) ]).
Proof.
  destruct (successful_bodies sample_client
              (fun _ => Resolves
                 (sample_response 200 []
                    (Some (VObj [ ("summary", VObj [("count", VNum 1)]);
                                  ("errors", VArr [VStr "e"]) ]))))
              [] _
              (VObj [ ("summary", VObj [("count", VNum 1)]);
                      ("errors", VArr [VStr "e"]) ])
              (fun _ => eq_refl))
    as (E & _ & _ & _ & _ & _ & _ & _ & _ & _ & S & _).
  - simpl. lia.
  - reflexivity.
  - split.
    + rewrite (E "TIMEOUT"); [reflexivity | discriminate].
    + exact S.
Defined.

(** ** Round trip of a message record *)

(** C9, as stated, at the record of the test suite with one more
    property: the validator accepts it and returns the record without that
    property, which is not an object equal to the input. *)
Lemma undeclared_key_dropped :
  well_formed (VObj (sample_message ++ [("trace_id", VStr "abc")])) = true
  /\ validateMessageResponse sample_URL_ok sample_issues
       (VObj (sample_message ++ [("trace_id", VStr "abc")]))
     = Returns (VObj sample_message)
  /\ same_value (VObj sample_message)
       (VObj (sample_message ++ [("trace_id", VStr "abc")])) = false.
Proof. repeat split. Qed.

(** C9, amended: for a value the MessageRecord validator accepts,
    [validateMessageResponse] returns an object equal to it provided the
    value carries no property the schema does not declare (such
    properties are left out of the result); validating the result again
    returns it unchanged.  The validator builds its result afresh and
    leaves its argument alone. *)
Theorem message_record_round_trip URL_ok issues v d :
  well_formed v = true ->
  validateMessageResponse URL_ok issues v = Returns d ->
  (declared_only MessageResponseSchema v = true -> same_value d v = true)
  /\ validateMessageResponse URL_ok issues d = Returns d.
Proof.
  unfold validateMessageResponse. intros W.
  destruct (safeParse URL_ok MessageResponseSchema (Some v))
    as [[r|]|] eqn:E; try discriminate.
  intros [= ->]. split.
  - intros D. eapply safeParse_same; eauto.
  - rewrite (safeParse_idempotent URL_ok MessageResponseSchema eq_refl _ _ E).
    reflexivity.
Qed.

Lemma message_record_round_trip_witness :
  same_value (VObj sample_message) (VObj sample_message) = true
  /\ validateMessageResponse sample_URL_ok sample_issues (VObj sample_message)
     = Returns (VObj sample_message).
Proof.
  destruct (message_record_round_trip sample_URL_ok sample_issues
              (VObj sample_message) (VObj sample_message) eq_refl eq_refl)
    as [S I].
  split; [exact (S eq_refl) | exact I].
Defined.

(* ================================================================== *)
(** * Part IV: further properties of the code                          *)
(* ================================================================== *)

(** ** Schemas and validators *)

Section SchemaFacts.

Variable URL_ok : string -> bool.

(** A key that is absent passes exactly the schemas that let it be. *)
Lemma safeParse_absent s :
  safeParse URL_ok s None = if accepts_undefined s then Some None else None.
Proof.
  induction s using schema_ind'; simpl; try reflexivity.
  assumption.
Qed.

Lemma safeParse_null s :
  rejects_null s = true -> safeParse URL_ok s (Some VNull) = None.
Proof.
  induction s using schema_ind'; simpl; try reflexivity; try discriminate.
  assumption.
Qed.

Lemma parse_shape_fails parse props shape k sk :
  In (k, sk) shape -> parse sk (lookup k props) = None ->
  parse_shape parse props shape = None.
Proof.
  induction shape as [|[k0 s0] shape IH]; simpl; [contradiction|].
  intros [[= -> ->]|Hin] F.
  - now rewrite F.
  - rewrite (IH Hin F). now destruct (parse s0 (lookup k0 props)) as [[?|]|].
Qed.

(** The properties of the output of an object schema: those the shape
    declares and the input has. *)
Lemma parse_shape_has_key props shape out k :
  parse_shape (safeParse URL_ok) props shape = Some out ->
  has_key k out = has_key k shape && has_key k props.
Proof.
  intros E. apply eq_true_iff_eq. rewrite andb_true_iff. split.
  - intros H. apply has_key_In in H as (v' & Hin).
    destruct (parse_shape_out _ _ _ _ E _ _ Hin) as (sk & Hs & Hp).
    split; [apply has_key_In; eauto|].
    destruct (lookup k props) as [w|] eqn:L.
    + apply has_key_lookup. eauto.
    + apply safeParse_undefined in Hp. discriminate.
  - intros [Hs Hp]. apply has_key_In in Hs as (sk & Hs).
    apply has_key_lookup in Hp as (w & L).
    destruct (parse_shape_in _ _ _ _ E _ _ Hs) as (o & Ho & Hout).
    rewrite L in Ho. apply safeParse_defined in Ho as Hd.
    destruct Hd as (v' & ->). apply has_key_In. eauto.
Qed.

Lemma declared_only_null s : declared_only s VNull = true.
Proof. induction s using schema_ind'; simpl; auto. Qed.

(** The output of a successful parse carries declared properties only. *)
Lemma safeParse_declared s :
  distinct_shapes s = true ->
  forall v d, safeParse URL_ok s (Some v) = Some (Some d) ->
  declared_only s d = true.
Proof.
  induction s as [ cs | cs | | os | l | | vt IH | el IH | shape IH | i IH | i IH ]
    using schema_ind'; intros DS; try (intros; reflexivity).
  - simpl in DS. intros [ | | | | | props ] d; simpl; try discriminate.
    destruct (parse_entries _ props) as [out|] eqn:E; simpl; [|discriminate].
    intros [= <-]. simpl. apply forallb_forall. intros [k v'] Hin.
    apply parse_entries_Forall2 in E.
    2:{ intros v Hv. apply safeParse_defined in Hv as [? ?]. discriminate. }
    destruct (Forall2_left E Hin) as ([k' v] & _ & _ & Hp). simpl in *.
    eapply IH; eauto.
  - simpl in DS. intros [ | | | | items | ] d; simpl; try discriminate.
    destruct (parse_items _ items) as [out|] eqn:E; simpl; [|discriminate].
    intros [= <-]. simpl. apply forallb_forall. intros v' Hin.
    apply parse_items_Forall2 in E.
    destruct (Forall2_left E Hin) as (v & _ & Hp). eapply IH; eauto.
  - simpl in DS. apply andb_true_iff in DS as [D DS].
    rewrite forallb_forall in DS. rewrite Forall_forall in IH.
    intros [ | | | | | props ] d; simpl; try discriminate.
    destruct (parse_shape _ props shape) as [out|] eqn:E; simpl; [|discriminate].
    intros [= <-]. simpl. apply andb_true_iff. split; apply forallb_forall.
    + intros [k v'] Hin. simpl.
      destruct (parse_shape_out _ _ _ _ E _ _ Hin) as (sk & Hs & _).
      apply has_key_In. eauto.
    + intros [k sk] Hs. simpl.
      pose proof (parse_shape_lookup _ _ _ _ D E _ _ Hs) as L.
      destruct (lookup k out) as [w|]; [|reflexivity].
      destruct (lookup k props) as [x|].
      * apply (IH (k, sk) Hs (DS (k, sk) Hs) _ _ L).
      * apply safeParse_undefined in L. discriminate.
  - simpl in DS. simpl. intros v d. apply IH. assumption.
  - simpl in DS. intros v d. destruct v; simpl; try apply IH; try assumption.
    intros [= <-]. apply declared_only_null.
Qed.

End SchemaFacts.

Lemma exported_schemas_distinct :
  forallb distinct_shapes exported_schemas = true.
Proof. reflexivity. Qed.

Section ValidatorFacts.

Variable URL_ok : string -> bool.
Variable issues : schema -> value -> list (list string * string).

(** What it means for one of the throwing validators to return. *)
Lemma object_validator_returns shape v d :
  safeParse URL_ok (object shape) (Some v) = Some (Some d) <->
  exists props out,
    v = VObj props /\ d = VObj out
    /\ parse_shape (safeParse URL_ok) props shape = Some out.
Proof.
  split.
  - destruct v as [ | | | | | props ]; simpl; try discriminate.
    destruct (parse_shape _ props shape) as [out|] eqn:E; simpl; [|discriminate].
    intros [= <-]. eauto.
  - intros (props & out & -> & -> & E). simpl. now rewrite E.
Qed.

Lemma validateMessageResponse_returns v d :
  validateMessageResponse URL_ok issues v = Returns d <->
  safeParse URL_ok MessageResponseSchema (Some v) = Some (Some d).
Proof.
  unfold validateMessageResponse.
  destruct (safeParse URL_ok MessageResponseSchema (Some v)) as [[r|]|];
    split; intros H; try discriminate; congruence.
Qed.

Lemma validateCallbackError_returns v d :
  validateCallbackError URL_ok issues v = Returns d <->
  safeParse URL_ok CallbackErrorSchema (Some v) = Some (Some d).
Proof.
  unfold validateCallbackError.
  destruct (safeParse URL_ok CallbackErrorSchema (Some v)) as [[r|]|];
    split; intros H; try discriminate; congruence.
Qed.

Lemma validateTimelineResponse_returns v d :
  validateTimelineResponse URL_ok issues v = Returns d <->
  safeParse URL_ok TimelineResponseSchema (Some v) = Some (Some d).
Proof.
  unfold validateTimelineResponse.
  destruct (safeParse URL_ok TimelineResponseSchema (Some v)) as [[r|]|];
    split; intros H; try discriminate; congruence.
Qed.

Lemma validateMessageResponse_throws v :
  safeParse URL_ok MessageResponseSchema (Some v) = None ->
  validateMessageResponse URL_ok issues v
  = Throws (Error ("Invalid message response: "
                   ++ report issues MessageResponseSchema v)).
Proof. unfold validateMessageResponse. now intros ->. Qed.

Lemma validateCallbackError_throws v :
  safeParse URL_ok CallbackErrorSchema (Some v) = None ->
  validateCallbackError URL_ok issues v
  = Throws (Error ("Invalid callback error: "
                   ++ report issues CallbackErrorSchema v)).
Proof. unfold validateCallbackError. now intros ->. Qed.

Lemma validateTimelineResponse_throws v :
  safeParse URL_ok TimelineResponseSchema (Some v) = None ->
  validateTimelineResponse URL_ok issues v
  = Throws (Error ("Invalid timeline response: "
                   ++ report issues TimelineResponseSchema v)).
Proof. unfold validateTimelineResponse. now intros ->. Qed.

Lemma object_rejects_missing shape props k sk :
  In (k, sk) shape -> accepts_undefined sk = false ->
  lookup k props = None ->
  safeParse URL_ok (object shape) (Some (VObj props)) = None.
Proof.
  intros Hin A L. simpl.
  rewrite (parse_shape_fails _ props shape k sk Hin); [reflexivity|].
  rewrite L, safeParse_absent, A. reflexivity.
Qed.

Lemma object_rejects_null shape props k sk :
  In (k, sk) shape -> rejects_null sk = true ->
  lookup k props = Some VNull ->
  safeParse URL_ok (object shape) (Some (VObj props)) = None.
Proof.
  intros Hin A L. simpl.
  rewrite (parse_shape_fails _ props shape k sk Hin); [reflexivity|].
  rewrite L. now apply safeParse_null.
Qed.

(** From a key of a list of literal keys to its entry in the shape. *)
Lemma key_entry k (shape : list (string * schema)) :
  In k (map fst shape) -> exists sk : schema, In (k, sk) shape.
Proof.
  intros H. apply in_map_iff in H as ([k' sk] & <- & Hin). eauto.
Qed.

End ValidatorFacts.

(** X1: every schema the module exports: validating with it strips what it
    does not declare, returns an object equal to an input that has nothing
    to strip, and returns its own result unchanged. *)
Theorem exported_schema_round_trip URL_ok issues s v d :
  In s exported_schemas ->
  well_formed v = true ->
  validateWithSchema URL_ok issues s v = data_ (Some d) ->
  validateWithSchema URL_ok issues s d = data_ (Some d)
  /\ declared_only s d = true
  /\ (declared_only s v = true -> same_value d v = true).
Proof.
  intros Hin W. unfold validateWithSchema.
  assert (DS : distinct_shapes s = true).
  { pose proof exported_schemas_distinct as A.
    rewrite forallb_forall in A. auto. }
  destruct (safeParse URL_ok s (Some v)) as [r|] eqn:E; [|discriminate].
  intros [= ->]. split; [|split].
  - now rewrite (safeParse_idempotent URL_ok s DS _ _ E).
  - eapply safeParse_declared; eauto.
  - intros D. eapply safeParse_same; eauto.
Qed.

Lemma exported_schema_round_trip_witness :
  validateWithSchema sample_URL_ok sample_issues RetryMessageResponseSchema
    (VObj [ ("success", VBool true);
            ("message_id", VStr "message_000004QYYDCF9PHB9C6VWVHZEZ");
            ("message", VStr "queued") ])
  = data_ (Some (VObj [ ("success", VBool true);
                        ("message_id", VStr "message_000004QYYDCF9PHB9C6VWVHZEZ");
                        ("message", VStr "queued") ])).
Proof.
  apply (proj1 (exported_schema_round_trip sample_URL_ok sample_issues
                  RetryMessageResponseSchema
                  (VObj [ ("message", VStr "queued");
                          ("success", VBool true);
                          ("message_id",
                            VStr "message_000004QYYDCF9PHB9C6VWVHZEZ");
                          ("debug", VNull) ])
                  _ (or_intror (or_intror (or_intror (or_intror (or_intror
                       (or_intror (or_introl eq_refl)))))))
                  eq_refl eq_refl)).
Defined.

(** X2: the wrapper and the throwing validators agree: the wrapper returns
    [{ data }] exactly when the validator returns, with the same data, and
    [{ error }] exactly when it throws. *)
Theorem validateWithSchema_agrees URL_ok issues v :
  (forall d,
     validateWithSchema URL_ok issues MessageResponseSchema v = data_ (Some d)
     <-> validateMessageResponse URL_ok issues v = Returns d)
  /\ (forall d,
        validateWithSchema URL_ok issues CallbackErrorSchema v = data_ (Some d)
        <-> validateCallbackError URL_ok issues v = Returns d)
  /\ (forall d,
        validateWithSchema URL_ok issues TimelineResponseSchema v
        = data_ (Some d)
        <-> validateTimelineResponse URL_ok issues v = Returns d)
  /\ (validateWithSchema URL_ok issues MessageResponseSchema v
      = error_ (issues MessageResponseSchema v)
      <-> exists e, validateMessageResponse URL_ok issues v = Throws e).
Proof.
  unfold validateWithSchema, validateMessageResponse, validateCallbackError,
    validateTimelineResponse.
  split; [|split; [|split]].
  1-3: intros d; destruct (safeParse URL_ok _ (Some v)) as [[r|]|];
       split; intros H; try discriminate; congruence.
  destruct (safeParse URL_ok _ (Some v)) as [[r|]|] eqn:E.
  - split; [discriminate | intros [e H]; discriminate].
  - apply safeParse_defined in E as [? ?]. discriminate.
  - split; eauto.
Qed.

(** X3: [validateCallbackError] and [validateTimelineResponse] round trip as
    [validateMessageResponse] does: the result equals an input that has
    only declared properties, and validating the result returns it. *)
Theorem callback_error_and_timeline_round_trip URL_ok issues v d :
  well_formed v = true ->
  (validateCallbackError URL_ok issues v = Returns d ->
     validateCallbackError URL_ok issues d = Returns d
     /\ (declared_only CallbackErrorSchema v = true -> same_value d v = true))
  /\ (validateTimelineResponse URL_ok issues v = Returns d ->
        validateTimelineResponse URL_ok issues d = Returns d
        /\ (declared_only TimelineResponseSchema v = true ->
            same_value d v = true)).
Proof.
  intros W. split; intros H.
  - apply validateCallbackError_returns in H. split.
    + apply validateCallbackError_returns.
      now apply (safeParse_idempotent URL_ok CallbackErrorSchema eq_refl _ _ H).
    + intros D. eapply safeParse_same; eauto.
  - apply validateTimelineResponse_returns in H. split.
    + apply validateTimelineResponse_returns.
      now apply (safeParse_idempotent URL_ok TimelineResponseSchema eq_refl _ _ H).
    + intros D. eapply safeParse_same; eauto.
Qed.

Lemma callback_error_and_timeline_round_trip_witness :
  validateCallbackError sample_URL_ok sample_issues (VObj sample_callback_error)
  = Returns (VObj sample_callback_error)
  /\ validateTimelineResponse sample_URL_ok sample_issues (VObj sample_timeline)
     = Returns (VObj sample_timeline).
Proof.
  split.
  - apply (proj1 (callback_error_and_timeline_round_trip
                    sample_URL_ok sample_issues
                    (VObj sample_callback_error) (VObj sample_callback_error)
                    eq_refl)).
    reflexivity.
  - apply (proj2 (callback_error_and_timeline_round_trip
                    sample_URL_ok sample_issues
                    (VObj sample_timeline) (VObj sample_timeline) eq_refl)).
    reflexivity.
Defined.

(** Rejection through one key of the shape, named by the hypothesis [L]
    on the input. *)
Ltac missing_key L :=
  match type of L with
  | lookup ?k ?props = None =>
      eapply (object_rejects_missing _ _ props k);
      [simpl; eauto 20 | reflexivity | exact L]
  | lookup ?k ?props = Some VNull =>
      eapply (object_rejects_null _ _ props k);
      [simpl; eauto 20 | reflexivity | exact L]
  end.

(** X4: a record that lacks one of the required properties is rejected, by
    each of the three validators. *)
Theorem required_properties_enforced URL_ok issues props k :
  lookup k props = None ->
  (In k [ "id"; "callback_url"; "payload"; "callback_headers"; "status";
          "created_at"; "updated_at"; "retry_count"; "max_retries" ] ->
     validateMessageResponse URL_ok issues (VObj props)
     = Throws (Error ("Invalid message response: "
                      ++ report issues MessageResponseSchema (VObj props))))
  /\ (In k [ "id"; "message_id"; "error_code"; "error_message";
             "created_at" ] ->
        validateCallbackError URL_ok issues (VObj props)
        = Throws (Error ("Invalid callback error: "
                         ++ report issues CallbackErrorSchema (VObj props))))
  /\ (In k [ "message_id"; "event_count"; "events" ] ->
        validateTimelineResponse URL_ok issues (VObj props)
        = Throws (Error ("Invalid timeline response: "
                         ++ report issues TimelineResponseSchema (VObj props)))).
Proof.
  intros L. split; [|split]; intros Hin.
  - apply validateMessageResponse_throws.
    simpl in Hin.
    repeat (destruct Hin as [<-|Hin]; [missing_key L|]).
    contradiction.
  - apply validateCallbackError_throws.
    simpl in Hin.
    repeat (destruct Hin as [<-|Hin]; [missing_key L|]).
    contradiction.
  - apply validateTimelineResponse_throws.
    simpl in Hin.
    repeat (destruct Hin as [<-|Hin]; [missing_key L|]).
    contradiction.
Qed.

Lemma required_properties_enforced_witness :
  validateMessageResponse sample_URL_ok sample_issues
    (VObj [ ("id", VStr "message_000004QYYDCF9PHB9C6VWVHZEZ");
            ("callback_url", VStr "https://example.com/webhook") ])
  = Throws (Error "Invalid message response: ").
Proof.
  apply (proj1 (required_properties_enforced sample_URL_ok sample_issues
                  [ ("id", VStr "message_000004QYYDCF9PHB9C6VWVHZEZ");
                    ("callback_url", VStr "https://example.com/webhook") ]
                  "payload" eq_refl)).
  simpl. auto.
Defined.

(** X5: an input that is not an object ([null], a boolean, a number, a
    string, an array) is rejected by each of the three validators. *)
Theorem non_objects_rejected URL_ok issues v :
  (forall props, v <> VObj props) ->
  validateMessageResponse URL_ok issues v
  = Throws (Error ("Invalid message response: "
                   ++ report issues MessageResponseSchema v))
  /\ validateCallbackError URL_ok issues v
     = Throws (Error ("Invalid callback error: "
                      ++ report issues CallbackErrorSchema v))
  /\ validateTimelineResponse URL_ok issues v
     = Throws (Error ("Invalid timeline response: "
                      ++ report issues TimelineResponseSchema v)).
Proof.
  intros N.
  destruct v as [ | | | | | props ]; try (repeat split; fail).
  now destruct (N props).
Qed.

Lemma non_objects_rejected_witness :
  validateMessageResponse sample_URL_ok sample_issues
    (VArr [VObj sample_message])
  = Throws (Error "Invalid message response: ").
Proof.
  apply (proj1 (non_objects_rejected sample_URL_ok sample_issues
                  (VArr [VObj sample_message])
                  (fun props H => eq_ind (VArr [VObj sample_message])
                     (fun v => match v with VArr _ => True | _ => False end)
                     I _ H))).
Defined.

(** X6: [null] is not a way to leave a property out: a message record or a
    callback error with [null] under any declared key is rejected, the
    optional keys included. *)
Theorem null_properties_rejected URL_ok issues props k :
  lookup k props = Some VNull ->
  (has_key k (shape_of MessageResponseSchema) = true ->
     validateMessageResponse URL_ok issues (VObj props)
     = Throws (Error ("Invalid message response: "
                      ++ report issues MessageResponseSchema (VObj props))))
  /\ (has_key k (shape_of CallbackErrorSchema) = true ->
        validateCallbackError URL_ok issues (VObj props)
        = Throws (Error ("Invalid callback error: "
                         ++ report issues CallbackErrorSchema (VObj props)))).
Proof.
  intros L. split; intros H.
  - apply validateMessageResponse_throws.
    apply has_key_In in H as (sk & Hin). simpl in Hin.
    repeat (destruct Hin as [[= <- <-]|Hin]; [missing_key L|]).
    contradiction.
  - apply validateCallbackError_throws.
    apply has_key_In in H as (sk & Hin). simpl in Hin.
    repeat (destruct Hin as [[= <- <-]|Hin]; [missing_key L|]).
    contradiction.
Qed.

Lemma null_properties_rejected_witness :
  validateMessageResponse sample_URL_ok sample_issues
    (VObj (sample_message ++ [("scheduled_at", VNull)]))
  = Throws (Error "Invalid message response: ").
Proof.
  apply (proj1 (null_properties_rejected sample_URL_ok sample_issues
                  (sample_message ++ [("scheduled_at", VNull)])
                  "scheduled_at" eq_refl)).
  reflexivity.
Defined.

(** X7: the validators neither invent nor rename properties: the result of
    an accepted record has exactly the declared keys that the input has,
    so an optional property that is absent stays absent and no default is
    filled in. *)
Theorem validated_keys URL_ok issues v d :
  (validateMessageResponse URL_ok issues v = Returns d ->
     exists props out,
       v = VObj props /\ d = VObj out
       /\ forall k,
            has_key k out
            = has_key k (shape_of MessageResponseSchema) && has_key k props)
  /\ (validateCallbackError URL_ok issues v = Returns d ->
        exists props out,
          v = VObj props /\ d = VObj out
          /\ forall k,
               has_key k out
               = has_key k (shape_of CallbackErrorSchema) && has_key k props)
  /\ (validateTimelineResponse URL_ok issues v = Returns d ->
        exists props out,
          v = VObj props /\ d = VObj out
          /\ forall k,
               has_key k out
               = has_key k (shape_of TimelineResponseSchema)
                 && has_key k props).
Proof.
  split; [|split]; intros H.
  - apply validateMessageResponse_returns, object_validator_returns in H
      as (props & out & -> & -> & E).
    exists props, out. repeat split. intros k.
    now apply parse_shape_has_key with (URL_ok := URL_ok).
  - apply validateCallbackError_returns, object_validator_returns in H
      as (props & out & -> & -> & E).
    exists props, out. repeat split. intros k.
    now apply parse_shape_has_key with (URL_ok := URL_ok).
  - apply validateTimelineResponse_returns, object_validator_returns in H
      as (props & out & -> & -> & E).
    exists props, out. repeat split. intros k.
    now apply parse_shape_has_key with (URL_ok := URL_ok).
Qed.

Lemma validated_keys_witness :
  exists out,
    validateMessageResponse sample_URL_ok sample_issues
      (VObj (("trace_id", VStr "abc") :: sample_message))
    = Returns (VObj out)
    /\ has_key "trace_id" out = false
    /\ has_key "scheduled_at" out = false
    /\ has_key "payload" out = true.
Proof.
  destruct (proj1 (validated_keys sample_URL_ok sample_issues
                     (VObj (("trace_id", VStr "abc") :: sample_message))
                     (VObj sample_message))
              eq_refl)
    as (props & out & Ev & Ed & K).
  injection Ev as <-. injection Ed as <-.
  exists sample_message. split; [reflexivity|].
  rewrite !K. repeat split.
Defined.

Section ScalarFacts.

Variable URL_ok : string -> bool.

Lemma string_parsed cs x o :
  safeParse URL_ok (string_ cs) x = Some o ->
  exists s, x = Some (VStr s) /\ o = Some (VStr s)
            /\ forallb (check_string URL_ok s) cs = true.
Proof.
  destruct x as [[ | | | s | | ]|]; simpl; try discriminate.
  destruct (forallb _ cs) eqn:C; [|discriminate].
  intros [= <-]. eauto.
Qed.

Lemma number_parsed cs x o :
  safeParse URL_ok (number cs) x = Some o ->
  exists q, x = Some (VNum q) /\ o = Some (VNum q)
            /\ forallb (check_number q) cs = true.
Proof.
  destruct x as [[ | | q | | | ]|]; simpl; try discriminate.
  destruct (forallb _ cs) eqn:C; [|discriminate].
  intros [= <-]. eauto.
Qed.

Lemma enum_parsed os x o :
  safeParse URL_ok (enum os) x = Some o ->
  exists s, x = Some (VStr s) /\ o = Some (VStr s) /\ In s os.
Proof.
  destruct x as [[ | | | s | | ]|]; simpl; try discriminate.
  destruct (existsb _ os) eqn:C; [|discriminate].
  intros [= <-]. exists s. repeat split.
  apply existsb_exists in C as (t & Hin & E).
  apply String.eqb_eq in E. now subst.
Qed.

End ScalarFacts.

(** X8: what acceptance guarantees: the result of [validateMessageResponse]
    has an [id] that [parseMessageId] accepts, a [callback_url] the URL
    parser accepts, a [status] among the five, timestamps that
    [validateTimestamp] accepts, and retry counters that are integers not
    below zero; each is the input's own value. *)
Theorem accepted_message_fields URL_ok issues v d :
  validateMessageResponse URL_ok issues v = Returns d ->
  exists props out id callback_url status created_at updated_at
         retry_count max_retries,
    v = VObj props /\ d = VObj out
    /\ lookup "id" props = Some (VStr id)
    /\ lookup "id" out = Some (VStr id)
    /\ parseMessageId URL_ok id = Returns id
    /\ lookup "callback_url" out = Some (VStr callback_url)
    /\ URL_ok callback_url = true
    /\ lookup "status" out = Some (VStr status)
    /\ In status ["pending"; "processing"; "completed"; "failed"; "dead_letter"]
    /\ lookup "created_at" out = Some (VStr created_at)
    /\ validateTimestamp URL_ok created_at = Returns created_at
    /\ lookup "updated_at" out = Some (VStr updated_at)
    /\ validateTimestamp URL_ok updated_at = Returns updated_at
    /\ lookup "retry_count" out = Some (VNum retry_count)
    /\ isInteger retry_count = true /\ (0 <= retry_count)%Q
    /\ lookup "max_retries" out = Some (VNum max_retries)
    /\ isInteger max_retries = true /\ (0 <= max_retries)%Q.
Proof.
  intros H.
  apply validateMessageResponse_returns, object_validator_returns in H
    as (props & out & -> & -> & E).
  pose proof (fun k sk =>
                parse_shape_lookup (safeParse URL_ok) props
                  (shape_of MessageResponseSchema) out eq_refl E k sk) as L.
  assert (Q : forall q, (0 <=? Qnum q)%Z = true -> (0 <= q)%Q).
  { intros q Hq. apply Z.leb_le in Hq. unfold Qle. simpl. lia. }
  destruct (string_parsed _ _ _ _ (L "id" _ ltac:(simpl; eauto 20)))
    as (id & Pi & Oi & Ci).
  destruct (string_parsed _ _ _ _ (L "callback_url" _ ltac:(simpl; eauto 20)))
    as (cu & Pc & Oc & Cc).
  destruct (enum_parsed _ _ _ _ (L "status" _ ltac:(simpl; eauto 20)))
    as (st & Ps & Os & Cs).
  destruct (string_parsed _ _ _ _ (L "created_at" _ ltac:(simpl; eauto 20)))
    as (ca & Pca & Oca & Cca).
  destruct (string_parsed _ _ _ _ (L "updated_at" _ ltac:(simpl; eauto 20)))
    as (ua & Pua & Oua & Cua).
  destruct (number_parsed _ _ _ _ (L "retry_count" _ ltac:(simpl; eauto 20)))
    as (rc & Prc & Orc & Crc).
  destruct (number_parsed _ _ _ _ (L "max_retries" _ ltac:(simpl; eauto 20)))
    as (mr & Pmr & Omr & Cmr).
  simpl in Ci, Cc, Cca, Cua, Crc, Cmr.
  rewrite andb_true_r in Ci, Cc, Cca, Cua.
  rewrite andb_true_r in Crc, Cmr.
  apply andb_true_iff in Crc as [Irc Nrc], Cmr as [Imr Nmr].
  exists props, out, id, cu, st, ca, ua, rc, mr.
  repeat match goal with |- _ /\ _ => split end; auto.
  - rewrite parseMessageId_test, Ci. reflexivity.
  - rewrite validateTimestamp_test, Cca. reflexivity.
  - rewrite validateTimestamp_test, Cua. reflexivity.
Qed.

Lemma accepted_message_fields_witness :
  exists id,
    lookup "id" sample_message = Some (VStr id)
    /\ parseMessageId sample_URL_ok id = Returns id.
Proof.
  destruct (accepted_message_fields sample_URL_ok sample_issues
              (VObj sample_message) (VObj sample_message) eq_refl)
    as (props & out & id & cu & st & ca & ua & rc & mr
        & Ev & Ed & Pi & Oi & Hi & _).
  injection Ev as <-. exists id. split; assumption.
Defined.

(** X9: validator composition: a [last_error] inside a message record goes
    through the callback-error validator.  When the record is accepted
    its [last_error] is what [validateCallbackError] returns for the
    input's; when [validateCallbackError] throws on it the record is
    rejected. *)
Theorem last_error_validated URL_ok issues props e :
  lookup "last_error" props = Some e ->
  (forall d,
     validateMessageResponse URL_ok issues (VObj props) = Returns d ->
     exists e' out,
       validateCallbackError URL_ok issues e = Returns e'
       /\ d = VObj out /\ lookup "last_error" out = Some e')
  /\ (forall x,
        validateCallbackError URL_ok issues e = Throws x ->
        validateMessageResponse URL_ok issues (VObj props)
        = Throws (Error ("Invalid message response: "
                         ++ report issues MessageResponseSchema (VObj props)))).
Proof.
  intros Le. split.
  - intros d H.
    apply validateMessageResponse_returns, object_validator_returns in H
      as (props' & out & [= <-] & -> & E).
    pose proof (parse_shape_lookup (safeParse URL_ok) props
                  (shape_of MessageResponseSchema) out eq_refl E
                  "last_error" (optional CallbackErrorSchema)
                  ltac:(simpl; eauto 20)) as L.
    rewrite Le in L. change (safeParse URL_ok (optional CallbackErrorSchema) (Some e))
      with (safeParse URL_ok CallbackErrorSchema (Some e)) in L.
    destruct (safeParse_defined _ _ _ _ L) as (e' & Ee).
    rewrite Ee in L. exists e', out. repeat split; auto.
    now apply validateCallbackError_returns.
  - intros x H. apply validateMessageResponse_throws.
    assert (F : safeParse URL_ok CallbackErrorSchema (Some e) = None).
    { unfold validateCallbackError in H.
      destruct (safeParse URL_ok CallbackErrorSchema (Some e)) as [[r|]|] eqn:F;
        [discriminate | | reflexivity].
      apply safeParse_defined in F as [? ?]. discriminate. }
    cbn [safeParse MessageResponseSchema].
    rewrite (parse_shape_fails (safeParse URL_ok) props _ "last_error"
               (optional CallbackErrorSchema));
      [reflexivity | simpl; eauto 20 |].
    rewrite Le. exact F.
Qed.

Lemma last_error_validated_witness :
  validateMessageResponse sample_URL_ok sample_issues
    (VObj (sample_message
           ++ [("last_error", VObj [("id", VStr "err_123")])]))
  = Throws (Error "Invalid message response: ").
Proof.
  apply (proj2 (last_error_validated sample_URL_ok sample_issues
                  (sample_message
                   ++ [("last_error", VObj [("id", VStr "err_123")])])
                  (VObj [("id", VStr "err_123")]) eq_refl)
           (Error "Invalid callback error: ")).
  reflexivity.
Defined.

(** X10: the [details] of a timeline event may be absent or [null], and the
    event schema keeps the difference: [null] stays [null], absent stays
    absent. *)
Theorem timeline_event_details URL_ok issues props d :
  validateWithSchema URL_ok issues TimelineEventSchema (VObj props)
  = data_ (Some d) ->
  exists out,
    d = VObj out
    /\ (lookup "details" props = Some VNull ->
        lookup "details" out = Some VNull)
    /\ (lookup "details" props = None -> lookup "details" out = None).
Proof.
  unfold validateWithSchema.
  destruct (safeParse URL_ok TimelineEventSchema (Some (VObj props)))
    as [r|] eqn:E; [|discriminate].
  intros [= ->].
  apply object_validator_returns in E as (props' & out & [= <-] & -> & E).
  pose proof (parse_shape_lookup (safeParse URL_ok) props
                (shape_of TimelineEventSchema) out eq_refl E
                "details" _ ltac:(simpl; eauto 20)) as L.
  exists out. split; [reflexivity|].
  split; intros Hd; rewrite Hd in L; simpl in L; congruence.
Qed.

Lemma timeline_event_details_witness :
  validateWithSchema sample_URL_ok sample_issues TimelineEventSchema
    (VObj (sample_event [("details", VNull)]))
  = data_ (Some (VObj (sample_event [("details", VNull)])))
  /\ lookup "details" (sample_event [("details", VNull)]) = Some VNull.
Proof.
  destruct (timeline_event_details sample_URL_ok sample_issues
              (sample_event [("details", VNull)])
              (VObj (sample_event [("details", VNull)])) eq_refl)
    as (out & Ed & N & _).
  injection Ed as <-. split; [reflexivity | exact (N eq_refl)].
Defined.

(** ** The client *)

Lemma remove_trailing_slash_spec s :
  if ends_with_slash s
  then remove_trailing_slash s ++ "/" = s
  else remove_trailing_slash s = s.
Proof.
  induction s as [|c s IH]; [reflexivity|].
  destruct s as [|c' s'].
  - simpl. destruct (Ascii.eqb_spec c "/") as [->|N]; reflexivity.
  - change (ends_with_slash (String c (String c' s')))
      with (ends_with_slash (String c' s')).
    change (remove_trailing_slash (String c (String c' s')))
      with (String c (remove_trailing_slash (String c' s'))).
    destruct (ends_with_slash (String c' s'));
      [cbn [append] | ]; f_equal; exact IH.
Qed.

Lemma decode_first c t :
  decode_component
    ((if in_class c uri_unreserved then String c ""
      else if (nat_of_ascii c <? 128)%nat then percent (nat_of_ascii c)
      else percent (192 + nat_of_ascii c / 64)
           ++ percent (128 + nat_of_ascii c mod 64)) ++ t)
  = String c (decode_component t).
Proof.
  destruct c as [[] [] [] [] [] [] [] []]; reflexivity.
Qed.

Lemma encode_decode s : decode_component (encodeURIComponent s) = s.
Proof.
  induction s as [|c s IH]; [reflexivity|].
  cbn [encodeURIComponent]. cbv zeta. now rewrite decode_first, IH.
Qed.


(** *** The constructor *)

(** X11: the constructor requires [apiUrl] and then [token],
    and accepts every configuration that has both. *)
Theorem constructor_requires_fields config :
  (apiUrl config = "" ->
     new_InlineClient config
     = Throws (Inline (ValidationError "apiUrl is required")))
  /\ (apiUrl config <> "" -> token config = "" ->
        new_InlineClient config
        = Throws (Inline (ValidationError "token is required")))
  /\ (apiUrl config <> "" -> token config <> "" ->
        exists client, new_InlineClient config = Returns client).
Proof.
  unfold new_InlineClient. split; [|split].
  - intros ->. reflexivity.
  - intros Hu ->. now rewrite (not_empty _ Hu).
  - intros Hu Ht. rewrite (not_empty _ Hu), (not_empty _ Ht). eauto.
Qed.

(** X12: a client that was constructed keeps the token, has the base URL
    without one trailing slash, and has a timeout that is never 0: the
    one given, or 30000 when none or 0 is given. *)
Theorem constructor_normalises config client :
  new_InlineClient config = Returns client ->
  this_token client = token config
  /\ this_token client <> ""
  /\ (if ends_with_slash (apiUrl config)
      then (this_apiUrl client ++ "/")%string = apiUrl config
      else this_apiUrl client = apiUrl config)
  /\ this_timeout client <> 0
  /\ (forall t, timeout config = Some t -> t <> 0 -> this_timeout client = t)
  /\ (timeout config = None \/ timeout config = Some 0 ->
        this_timeout client = 30000).
Proof.
  unfold new_InlineClient.
  destruct (apiUrl config =? "")%string; [discriminate|].
  destruct (token config =? "")%string eqn:T; [discriminate|].
  intros [= <-]. cbn [this_token this_apiUrl this_timeout].
  split; [reflexivity|]. split.
  { intros E. rewrite E in T. discriminate. }
  split; [apply remove_trailing_slash_spec|].
  destruct (timeout config) as [t|].
  - destruct (Z.eqb_spec t 0) as [->|N].
    + repeat split; try lia. intros t [= <-] N. contradiction.
    + repeat split; try assumption.
      * now intros t' [= <-] _.
      * intros [|[= E]]; [discriminate | contradiction].
  - repeat split; try lia. discriminate.
Qed.

Lemma constructor_normalises_witness :
  exists client,
    new_InlineClient
      {| apiUrl := "http://localhost:3000/"; token := "t"; timeout := Some 0 |}
    = Returns client
    /\ this_apiUrl client = "http://localhost:3000"
    /\ this_timeout client = 30000.
Proof.
  eexists. split; [reflexivity|].
  destruct (constructor_normalises
              {| apiUrl := "http://localhost:3000/"; token := "t";
                 timeout := Some 0 |} _ eq_refl)
    as (_ & _ & _ & _ & _ & T).
  split; [reflexivity | apply T; now right].
Defined.

(** *** One call per operation *)

Lemma perform_request this fetch op :
  required_argument op <> Some "" ->
  exists options,
    (forall calls,
       perform this fetch op calls
       = (response <- request this fetch (fst (endpoint op))
                        (snd (endpoint op)) options ;;
          result_of op response) calls)
    /\ (forall b, chain body options = Some b ->
          exists callbackUrl payload o props,
            op = Publish callbackUrl payload o
            /\ httpMethod o <> "GET" /\ b = VObj props)
    /\ (forall q, chain query options = Some q ->
          (exists callbackUrl payload o,
             op = Publish callbackUrl payload o /\ httpMethod o = "GET")
          \/ (exists o, op = ListMessages o \/ op = GetMessages o)).
Proof.
  assert (N : forall s, Some s <> Some "" -> (s =? "")%string = false).
  { intros s H. apply not_empty. congruence. }
  destruct op; cbn [required_argument endpoint fst snd]; intros H;
    try apply N in H.
  - unfold perform, publish. rewrite H.
    destruct (httpMethod options =? "GET")%string eqn:G.
    + apply String.eqb_eq in G. rewrite G.
      eexists. split; [reflexivity|]. split.
      * intros b. destruct (0 <? _)%nat; discriminate.
      * intros q _. left. eauto.
    + apply String.eqb_neq in G.
      eexists. split; [reflexivity|]. split.
      * intros b [= <-]. eauto 8.
      * discriminate.
  - unfold perform, getMessage. rewrite H.
    exists None. repeat split; discriminate.
  - exists (Some {| body := None;
                    query := Some
                      (when_set (chain ListMessagesOptions.status options)
                         (fun v => assign "status" (QStr v))
                         [ ("limit",
                             QNum (match chain ListMessagesOptions.limit options with
                                   | Some n => n
                                   | None => 10
                                   end));
                           ("offset",
                             QNum (match chain ListMessagesOptions.offset options with
                                   | Some n => n
                                   | None => 0
                                   end)) ]) |}).
    split; [reflexivity|]. split; [discriminate|]. intros q _. right. eauto.
  - exists (Some {| body := None;
                    query := Some
                      (when_set (chain ListMessagesOptions.status options)
                         (fun v => assign "status" (QStr v))
                         [ ("limit",
                             QNum (match chain ListMessagesOptions.limit options with
                                   | Some n => n
                                   | None => 10
                                   end));
                           ("offset",
                             QNum (match chain ListMessagesOptions.offset options with
                                   | Some n => n
                                   | None => 0
                                   end)) ]) |}).
    split; [reflexivity|]. split; [discriminate|]. intros q _. right. eauto.
  - unfold perform, getMessageTimeline. rewrite H.
    exists None. repeat split; discriminate.
  - unfold perform, retryMessage. rewrite H.
    exists None. repeat split; discriminate.
  - exists None. repeat split; discriminate.
  - exists None. repeat split; discriminate.
  - exists None. repeat split; discriminate.
  - exists None. repeat split; discriminate.
  - exists None. repeat split; discriminate.
  - exists None. repeat split; discriminate.
  - unfold perform, getErrorsByCode. rewrite H.
    exists None. repeat split; discriminate.
  - unfold perform, getMessageErrors. rewrite H.
    exists None. repeat split; discriminate.
Qed.

Lemma result_of_calls op response calls :
  snd (result_of op response calls) = calls.
Proof. destruct op; try reflexivity; apply dot_errors_calls. Qed.

Lemma request_then_calls {A} this fetch method path options
    (k : value -> M A) calls :
  (forall response calls', snd (k response calls') = calls') ->
  snd ((response <- request this fetch method path options ;; k response) calls)
  = (calls ++ [build_call this method path options])%list.
Proof.
  intros K. unfold bind.
  pose proof (request_calls this fetch method path options calls) as R.
  destruct (request this fetch method path options calls) as [[b|e] calls'];
    simpl in R; subst calls'; [apply K | reflexivity].
Qed.

Lemma perform_empty this fetch op calls :
  required_argument op = Some "" ->
  exists message,
    perform this fetch op calls
    = (Throws (Inline (ValidationError message)), calls).
Proof.
  destruct op; cbn [required_argument]; intros [= ->] || discriminate;
    eexists; reflexivity.
Qed.





(** *** Outcomes *)

Lemma handle_response_returns response b :
  handle_response response = Returns b ->
  200 <= status response <= 299 /\ json response = Some b.
Proof.
  unfold handle_response, ok.
  repeat match goal with
         | |- context [if ?c then _ else _] =>
             destruct c eqn:?; try discriminate
         end.
  destruct (json response) as [d|]; [|discriminate].
  intros [= ->]. split; [|reflexivity].
  match goal with
  | H : negb _ = false |- _ =>
      apply negb_false_iff, andb_true_iff in H as [A B]
  end.
  lia.
Qed.

Lemma handle_response_throws response :
  ~ (200 <= status response <= 299) ->
  exists e, handle_response response = Throws (Inline e)
            /\ error_status e = Some (status response).
Proof.
  intros S. unfold handle_response.
  destruct (Z.eqb_spec (status response) 401) as [E|_];
    [rewrite E; eauto|].
  destruct (Z.eqb_spec (status response) 403) as [E|_];
    [rewrite E; eauto|].
  destruct (Z.eqb_spec (status response) 404) as [E|_];
    [rewrite E; eauto|].
  destruct (Z.eqb_spec (status response) 429) as [E|_];
    [rewrite E; eauto|].
  destruct (500 <=? status response); [eauto|].
  destruct (negb (ok response)) eqn:O; [eauto|].
  exfalso. apply S. apply negb_false_iff, andb_true_iff in O as [A B]. lia.
Qed.

Lemma request_returns this fetch method path options calls b :
  fst (request this fetch method path options calls) = Returns b ->
  exists response,
    fetch (build_call this method path options) = Resolves response
    /\ handle_response response = Returns b.
Proof.
  unfold request. cbn [fst].
  destruct (fetch (build_call this method path options)) as [r|e|];
    cbn [await_fetch]; try discriminate.
  destruct (handle_response r) as [d|e] eqn:Hr; [|discriminate].
  intros [= ->]. eauto.
Qed.

(** X15: an operation returns only when its one call was resolved with a
    2xx status and a JSON body; what it returns is that body, or for the
    two errors operations the [errors] property of a body that is not
    [null]. *)
Theorem returns_only_on_success this fetch op calls v :
  fst (perform this fetch op calls) = Returns v ->
  exists call response b,
    snd (perform this fetch op calls) = (calls ++ [call])%list
    /\ fetch call = Resolves response
    /\ 200 <= status response <= 299
    /\ json response = Some b
    /\ (v = Some b
        \/ b <> VNull
           /\ (exists s, op = GetErrorsByCode s \/ op = GetMessageErrors s)
           /\ v = match b with
                  | VObj props => lookup "errors" props
                  | _ => None
                  end).
Proof.
  intros Hv.
  destruct (required_argument op) as [s|] eqn:R.
  2: assert (H : required_argument op <> Some "") by (rewrite R; discriminate).
  1: destruct (string_dec s "") as [->|Hs].
  1: { destruct (perform_empty this fetch op calls R) as (m & E).
       rewrite E in Hv. discriminate. }
  1: assert (H : required_argument op <> Some "") by (rewrite R; congruence).
  all: destruct (perform_request this fetch op H) as (options & E & _);
    rewrite E in *;
    rewrite request_then_calls by (intros; apply result_of_calls);
    unfold bind in Hv;
    pose proof (request_returns this fetch (fst (endpoint op))
                  (snd (endpoint op)) options calls) as Rr;
    destruct (request this fetch (fst (endpoint op)) (snd (endpoint op))
                options calls) as [[b|e] calls'];
    [|discriminate];
    destruct (Rr b eq_refl) as (response & F & Hr);
    apply handle_response_returns in Hr as [S J];
    exists (build_call this (fst (endpoint op)) (snd (endpoint op)) options),
      response, b;
    (repeat split; try assumption; try lia);
    destruct op; cbn [result_of ret fst] in Hv;
    try (left; congruence);
    right; destruct b; cbn in Hv; try discriminate;
    (split; [discriminate|]); (split; [eauto|]); congruence.
Qed.

Lemma returns_only_on_success_witness :
  exists call response b,
    snd (perform sample_client
           (fun _ => Resolves (sample_response 200 [] (Some (VObj []))))
           (GetErrorsByCode "TIMEOUT") [])
    = [call]
    /\ (fun _ => Resolves (sample_response 200 [] (Some (VObj [])))) call
       = Resolves response
    /\ 200 <= status response <= 299
    /\ json response = Some b
    /\ (None = Some b
        \/ b <> VNull
           /\ (exists s, GetErrorsByCode "TIMEOUT" = GetErrorsByCode s
                         \/ GetErrorsByCode "TIMEOUT" = GetMessageErrors s)
           /\ None = match b with
                     | VObj props => lookup "errors" props
                     | _ => None
                     end).
Proof.
  apply (returns_only_on_success sample_client
           (fun _ => Resolves (sample_response 200 [] (Some (VObj []))))
           (GetErrorsByCode "TIMEOUT") [] None).
  reflexivity.
Defined.

(** X16: when the transport resolves with a status outside 200..299, an
    operation that reaches the network never returns: it throws an
    [InlineError] whose [status] is the status of the response, hence
    neither a [ValidationError] nor a [NetworkError]. *)
Theorem failure_statuses_throw this fetch op calls response :
  (forall call, fetch call = Resolves response) ->
  required_argument op <> Some "" ->
  ~ (200 <= status response <= 299) ->
  exists e,
    fst (perform this fetch op calls) = Throws (Inline e)
    /\ error_status e = Some (status response)
    /\ (forall m, e <> ValidationError m)
    /\ (forall m o, e <> NetworkError m o).
Proof.
  intros F H S.
  destruct (perform_request this fetch op H) as (options & E & _).
  destruct (handle_response_throws response S) as (e & Hr & He).
  exists e. rewrite E. unfold bind.
  rewrite (request_resolved _ _ _ _ _ calls _ (F _)), Hr.
  split; [reflexivity|]. split; [assumption|].
  split; intros; intros ->; discriminate.
Qed.

Lemma failure_statuses_throw_witness :
  exists e,
    fst (perform sample_client
           (fun _ => Resolves (sample_response 302 [] None))
           GetHealth [])
    = Throws (Inline e)
    /\ error_status e = Some 302.
Proof.
  destruct (failure_statuses_throw sample_client
              (fun _ => Resolves (sample_response 302 [] None))
              GetHealth [] (sample_response 302 [] None))
    as (e & E & S & _).
  - reflexivity.
  - discriminate.
  - simpl. lia.
  - exists e. split; assumption.
Defined.

(** X17: the two errors operations read [errors] outside the [try] of
    [request]: on a 2xx response whose body is [null] they throw a
    [TypeError] that is not wrapped as [NetworkError]; on a body that is
    no object, or an object without [errors], they return [undefined]. *)
Theorem errors_of_unexpected_bodies this fetch op calls response b :
  (exists s, s <> "" /\ (op = GetErrorsByCode s \/ op = GetMessageErrors s)) ->
  (forall call, fetch call = Resolves response) ->
  200 <= status response <= 299 ->
  json response = Some b ->
  (b = VNull ->
     exists m, fst (perform this fetch op calls) = Throws (Native (TypeError m)))
  /\ (forall props, b = VObj props -> lookup "errors" props = None ->
        fst (perform this fetch op calls) = Returns None)
  /\ ((forall props, b <> VObj props) -> b <> VNull ->
        fst (perform this fetch op calls) = Returns None).
Proof.
  intros (s & Hs & Hop) F S J.
  pose proof (request_ok this _ _ _ F S J) as R.
  assert (E : fst (perform this fetch op calls) = fst (dot_errors b calls)).
  { destruct Hop as [-> | ->]; cbn [perform];
      unfold getErrorsByCode, getMessageErrors, bind;
      rewrite (not_empty _ Hs), R; destruct b; reflexivity. }
  rewrite E. split; [|split].
  - intros ->. eexists. reflexivity.
  - intros props -> L. cbn. now rewrite L.
  - intros No Nn. destruct b; try reflexivity.
    + contradiction.
    + now destruct (No props).
Qed.

Lemma errors_of_unexpected_bodies_witness :
  exists m,
    fst (perform sample_client
           (fun _ => Resolves (sample_response 200 [] (Some VNull)))
           (GetMessageErrors "m") [])
    = Throws (Native (TypeError m)).
Proof.
  apply (errors_of_unexpected_bodies sample_client
           (fun _ => Resolves (sample_response 200 [] (Some VNull)))
           (GetMessageErrors "m") [] (sample_response 200 [] (Some VNull))
           VNull).
  - exists "m". split; [discriminate | now right].
  - reflexivity.
  - simpl. lia.
  - reflexivity.
  - reflexivity.
Defined.

(** *** [publish] *)

Lemma lookup_map_snd {A B} (g : A -> B) k (q : list (string * A)) :
  lookup k (map (fun kv => (fst kv, g (snd kv))) q)
  = option_map g (lookup k q).
Proof.
  induction q as [|[k' v] q IH]; simpl; [reflexivity|].
  now destruct (k =? k')%string.
Qed.

Lemma forwarded_prefix k hs v :
  forwarded k hs = Some v -> exists h, k = ("Queue-Forward-" ++ h)%string.
Proof.
  unfold forwarded. induction (rev hs) as [|[h w] l IH]; [discriminate|].
  cbn [map lookup fst snd].
  destruct (String.eqb_spec k ("Queue-Forward-" ++ h)) as [->|_]; eauto.
Qed.

Lemma httpMethod_GET options :
  httpMethod options = "GET" ->
  truthy (chain PublishOptions.method options) = true.
Proof.
  unfold httpMethod.
  destruct (chain PublishOptions.method options) as [m|]; [|discriminate].
  destruct (truthy (Some m)); [reflexivity | discriminate].
Qed.

(** The query [publish] builds for GET, before the forwarded headers. *)
Lemma publish_query_scheduling options k :
  lookup k
    (when_set (chain PublishOptions.method options)
       (fun _ => assign "Queue-Method" (QStr (httpMethod options)))
       (when_set (chain PublishOptions.timezone options)
          (fun v => assign "Queue-timezone" (QStr v))
          (when_set (chain PublishOptions.notBefore options)
             (fun v => assign "Queue-notBefore" (QStr v))
             (when_set (chain PublishOptions.delay options)
                (fun v => assign "Queue-Delay" (QStr v)) []))))
  = option_map QStr
      (if (k =? "Queue-Method")%string
          && truthy (chain PublishOptions.method options)
       then Some (httpMethod options)
       else if (k =? "Queue-timezone")%string
               && truthy (chain PublishOptions.timezone options)
       then chain PublishOptions.timezone options
       else if (k =? "Queue-notBefore")%string
               && truthy (chain PublishOptions.notBefore options)
       then chain PublishOptions.notBefore options
       else if (k =? "Queue-Delay")%string
               && truthy (chain PublishOptions.delay options)
       then chain PublishOptions.delay options
       else None).
Proof.
  rewrite (lookup_when_set k "Queue-Method" _
             (fun _ => QStr (httpMethod options))).
  destruct ((k =? "Queue-Method")%string
            && truthy (chain PublishOptions.method options)) eqn:E1.
  { apply andb_true_iff in E1 as [_ T].
    destruct (chain PublishOptions.method options); [reflexivity|discriminate]. }
  rewrite (lookup_when_set k "Queue-timezone" _ QStr).
  destruct ((k =? "Queue-timezone")%string
            && truthy (chain PublishOptions.timezone options)); [reflexivity|].
  rewrite (lookup_when_set k "Queue-notBefore" _ QStr).
  destruct ((k =? "Queue-notBefore")%string
            && truthy (chain PublishOptions.notBefore options)); [reflexivity|].
  rewrite (lookup_when_set k "Queue-Delay" _ QStr).
  destruct ((k =? "Queue-Delay")%string
            && truthy (chain PublishOptions.delay options)); reflexivity.
Qed.

(** A forwarded header never takes the name of a scheduling field, so
    the order in which [publish] writes the two groups does not matter. *)
Lemma publish_query_fields options k :
  lookup k
    match chain PublishOptions.headers options with
    | Some hs =>
        fold_left
          (fun q kv => assign ("Queue-Forward-" ++ fst kv) (QStr (snd kv)) q)
          hs
          (when_set (chain PublishOptions.method options)
             (fun _ => assign "Queue-Method" (QStr (httpMethod options)))
             (when_set (chain PublishOptions.timezone options)
                (fun v => assign "Queue-timezone" (QStr v))
                (when_set (chain PublishOptions.notBefore options)
                   (fun v => assign "Queue-notBefore" (QStr v))
                   (when_set (chain PublishOptions.delay options)
                      (fun v => assign "Queue-Delay" (QStr v)) []))))
    | None =>
        when_set (chain PublishOptions.method options)
          (fun _ => assign "Queue-Method" (QStr (httpMethod options)))
          (when_set (chain PublishOptions.timezone options)
             (fun v => assign "Queue-timezone" (QStr v))
             (when_set (chain PublishOptions.notBefore options)
                (fun v => assign "Queue-notBefore" (QStr v))
                (when_set (chain PublishOptions.delay options)
                   (fun v => assign "Queue-Delay" (QStr v)) [])))
    end
  = option_map QStr (reserved_field options k).
Proof.
  unfold reserved_field.
  destruct (chain PublishOptions.headers options) as [hs|].
  - rewrite (lookup_forwarded QStr), publish_query_scheduling.
    destruct (forwarded k hs) as [v|] eqn:F.
    + destruct (forwarded_prefix _ _ _ F) as (h & ->).
      change (("Queue-Forward-" ++ h =? "Queue-Method")%string) with false.
      change (("Queue-Forward-" ++ h =? "Queue-timezone")%string) with false.
      change (("Queue-Forward-" ++ h =? "Queue-notBefore")%string) with false.
      change (("Queue-Forward-" ++ h =? "Queue-Delay")%string) with false.
      reflexivity.
    + reflexivity.
  - apply publish_query_scheduling.
Qed.

(** X18: with the method GET, [publish] sends no body and ignores the
    payload; the query parameters are the reserved fields the options ask
    for, [Queue-Method=GET] always among them, so the call is never made
    without query parameters. *)
Theorem publish_GET_query this fetch calls callbackUrl payload options :
  callbackUrl <> "" ->
  httpMethod options = "GET" ->
  (exists params,
     snd (publish this fetch callbackUrl payload options calls)
     = (calls ++
        [ {| call_url :=
               {| url_base := this_apiUrl this;
                  url_path :=
                    ("/publish/" ++ encodeURIComponent callbackUrl)%string;
                  searchParams := params |};
             call_method := "GET";
             call_headers :=
               [ ("Content-Type", "application/json");
                 ("Authorization", ("Bearer " ++ this_token this)%string) ];
             call_body := None |} ])%list
     /\ (forall k, lookup k params = reserved_field options k)
     /\ lookup "Queue-Method" params = Some "GET")
  /\ (forall payload',
        publish this fetch callbackUrl payload' options calls
        = publish this fetch callbackUrl payload options calls).
Proof.
  intros Hu G.
  assert (Eq : (httpMethod options =? "GET")%string = true)
    by now apply String.eqb_eq.
  split.
  - pose proof (publish_query_fields options) as L.
    unfold publish. rewrite (not_empty _ Hu). cbv zeta. rewrite Eq.
    match goal with
    | |- context [List.length ?q] => set (query := q) in *
    end.
    assert (M : lookup "Queue-Method" query = Some (QStr "GET")).
    { rewrite L. unfold reserved_field.
      rewrite (httpMethod_GET _ G), G. reflexivity. }
    destruct query as [|kv query]; [discriminate|].
    change (0 <? List.length (kv :: query))%nat with true. cbv iota.
    rewrite request_calls.
    eexists. split; [reflexivity|].
    split.
    + intros k. rewrite lookup_map_snd, L.
      now destruct (reserved_field options k).
    + now rewrite lookup_map_snd, M.
  - intros payload'. unfold publish.
    rewrite (not_empty _ Hu). cbv zeta. rewrite Eq. reflexivity.
Qed.

Lemma publish_GET_query_witness :
  exists params,
    map (fun c => (searchParams (call_url c), call_body c))
        (snd (publish sample_client (fun _ => Pending)
                "https://example.com/hook" [("a", VNum 1)]
                (Some (sample_options (Some "Get") None)) []))
    = [ (params, None) ]
    /\ lookup "Queue-Method" params = Some "GET"
    /\ lookup "Queue-Delay" params = None
    /\ lookup "a" params = None.
Proof.
  destruct (publish_GET_query sample_client (fun _ => Pending) []
              "https://example.com/hook" [("a", VNum 1)]
              (Some (sample_options (Some "Get") None)))
    as [(params & E & L & M) _]; try reflexivity; try discriminate.
  exists params. rewrite E. split; [reflexivity|].
  split; [exact M|]. split; rewrite L; reflexivity.
Defined.

Lemma publish_calls this fetch callbackUrl payload options calls :
  callbackUrl <> "" ->
  exists method request_options,
    snd (publish this fetch callbackUrl payload options calls)
    = (calls ++ [build_call this method
                   ("/publish/" ++ encodeURIComponent callbackUrl)
                   request_options])%list.
Proof.
  intros Hu. unfold publish. rewrite (not_empty _ Hu). cbv zeta.
  destruct (httpMethod options =? "GET")%string;
    rewrite request_calls; eauto.
Qed.




(** X20: [publish] calls for different callback URLs go to different
    paths: the encoding of the callback URL loses nothing. *)
Theorem publish_path_injective this fetch
    url1 payload1 options1 calls1 call1
    url2 payload2 options2 calls2 call2 :
  url1 <> "" -> url2 <> "" -> url1 <> url2 ->
  snd (publish this fetch url1 payload1 options1 calls1)
  = (calls1 ++ [call1])%list ->
  snd (publish this fetch url2 payload2 options2 calls2)
  = (calls2 ++ [call2])%list ->
  url_path (call_url call1) <> url_path (call_url call2).
Proof.
  intros H1 H2 N E1 E2 P. apply N.
  destruct (publish_calls this fetch url1 payload1 options1 calls1 H1)
    as (m1 & o1 & F1).
  destruct (publish_calls this fetch url2 payload2 options2 calls2 H2)
    as (m2 & o2 & F2).
  rewrite F1 in E1. rewrite F2 in E2.
  apply app_inj_tail in E1 as [_ <-]. apply app_inj_tail in E2 as [_ <-].
  cbn [build_call call_url url_path] in P.
  injection P as P.
  rewrite <- (encode_decode url1), <- (encode_decode url2). now rewrite P.
Qed.

Lemma publish_path_injective_witness :
  url_path (call_url
    (build_call sample_client "POST" "/publish/https%3A%2F%2Fexample.com%2Fa%20b"
       (Some {| body := Some (VObj []); query := None |})))
  <> url_path (call_url
       (build_call sample_client "POST"
          "/publish/https%3A%2F%2Fexample.com%2Fa%2520b"
          (Some {| body := Some (VObj []); query := None |}))).
Proof.
  apply (publish_path_injective sample_client (fun _ => Pending)
           "https://example.com/a b" [] None []
           (build_call sample_client "POST"
              "/publish/https%3A%2F%2Fexample.com%2Fa%20b"
              (Some {| body := Some (VObj []); query := None |}))
           "https://example.com/a%20b" [] None []
           (build_call sample_client "POST"
              "/publish/https%3A%2F%2Fexample.com%2Fa%2520b"
              (Some {| body := Some (VObj []); query := None |})));
    try discriminate; reflexivity.
Defined.

(** *** [src/errors.ts] *)

(** X21: the eight error classes have pairwise different codes, so the
    [code] of an error tells its class; and the errors without an HTTP
    status are exactly [NetworkError] and [ValidationError]. *)
Theorem error_code_identifies_class e1 e2 :
  (error_code e1 = error_code e2 <-> error_name e1 = error_name e2)
  /\ (error_status e1 = None
      <-> (exists m o, e1 = NetworkError m o)
          \/ (exists m, e1 = ValidationError m)).
Proof.
  split.
  - destruct e1, e2; split; intros H; try reflexivity; discriminate.
  - destruct e1; split; try discriminate; eauto;
      intros [(m & o & H)|(m & H)]; discriminate.
Qed.

(** *** [listMessages] *)

(** X22: [listMessages] always sends [limit] and [offset], 10 and 0
    unless the options give them (a given 0 is kept), sends [status] only
    when it is a non-empty string, sends nothing else and no body; and
    [getMessages] is the same call. *)
Theorem list_messages_query this fetch options calls :
  exists params,
    snd (listMessages this fetch options calls)
    = (calls ++
       [ {| call_url :=
              {| url_base := this_apiUrl this;
                 url_path := "/messages";
                 searchParams := params |};
            call_method := "GET";
            call_headers :=
              [ ("Content-Type", "application/json");
                ("Authorization", ("Bearer " ++ this_token this)%string) ];
            call_body := None |} ])%list
    /\ lookup "limit" params
       = Some (String_of
                 match chain ListMessagesOptions.limit options with
                 | Some n => n
                 | None => 10
                 end)
    /\ lookup "offset" params
       = Some (String_of
                 match chain ListMessagesOptions.offset options with
                 | Some n => n
                 | None => 0
                 end)
    /\ lookup "status" params
       = (if truthy (chain ListMessagesOptions.status options)
          then chain ListMessagesOptions.status options
          else None)
    /\ (forall k, k <> "limit" -> k <> "offset" -> k <> "status" ->
          lookup k params = None)
    /\ getMessages this fetch options calls
       = listMessages this fetch options calls.
Proof.
  unfold getMessages, listMessages. cbv zeta. rewrite request_calls.
  eexists. split; [reflexivity|].
  cbn [build_call call_url searchParams].
  repeat split.
  - rewrite lookup_map_snd, (lookup_when_set "limit" "status" _ QStr).
    reflexivity.
  - rewrite lookup_map_snd, (lookup_when_set "offset" "status" _ QStr).
    reflexivity.
  - rewrite lookup_map_snd, (lookup_when_set "status" "status" _ QStr).
    cbn [String.eqb Ascii.eqb Bool.eqb andb].
    destruct (truthy (chain ListMessagesOptions.status options));
      [now destruct (chain ListMessagesOptions.status options) | reflexivity].
  - intros k Hl Ho Hs.
    rewrite lookup_map_snd, (lookup_when_set k "status" _ QStr).
    apply String.eqb_neq in Hl, Ho, Hs. rewrite Hs. cbn [andb lookup].
    now rewrite Hl, Ho.
Qed.
